(** * abready: a service registry in three evolutions

    The repository holds three successive versions of one HTTP server:
    - [Mem0]  (src/unnamed/part_000): an in-memory map guarded by a
      read/write lock, with register, list and get;
    - [Mem]   (src/main.go, first file): the same map with validation,
      update, delete and health check;
    - [Redis] (src/main.go, second file): the records live in Redis, the
      registrations arrive through a Kafka topic, and update and health
      check run inside a WATCH / MULTI / EXEC transaction.

    Every handler is embedded as a function of its inputs (the path
    parameter, the outcome of [c.ShouldBindJSON], the reading of
    [time.Now()]) and of the store it runs against. *)

From stdpp Require Import gmap strings list fin_maps.

Open Scope string_scope.
Open Scope list_scope.

(** ** Shared data model *)

(** Modelled from the spec: [lib.Service] is declared in the external
    autro-library; the spec gives it the fields name, address and
    lastHeartbeat.  A [time.Time] is an integer reading of the clock. *)
Record Service := mkService {
  Name : string;
  Address : string;
  LastHeartbeat : Z
}.

#[global] Instance Service_eq_dec : EqDecision Service.
Proof. solve_decision. Defined.

(** [service.LastHeartbeat = time.Now()] *)
Definition set_LastHeartbeat (now : Z) (service : Service) : Service :=
  {| Name := Name service; Address := Address service; LastHeartbeat := now |}.

(** Go errors.  The handlers distinguish the two sentinel values of
    go-redis by identity and everything else by its text. *)
Inductive error :=
  | RedisNil
  | TxFailedErr
  | Errorf (msg : string).

#[global] Instance error_eq_dec : EqDecision error.
Proof. solve_decision. Defined.

(** [err.Error()] *)
Definition Error (e : error) : string :=
  match e with
  | RedisNil => "redis: nil"
  | TxFailedErr => "redis: transaction failed"
  | Errorf msg => msg
  end.

Inductive result (A : Type) :=
  | Ok (a : A)
  | Err (e : error).
Arguments Ok {A} a.
Arguments Err {A} e.

(** [validateService]: [None] is Go's [nil] error. *)
Definition validateService (service : Service) : option error :=
  if decide (Name service = "") then
    Some (Errorf "service name cannot be empty")
  else if decide (Address service = "") then
    Some (Errorf "service Address cannot be empty")
  else None.

(** A codec to evaluate the handlers with: the JSON text of a record is
    the record itself. *)
Definition plain_marshal (service : Service) : result Service := Ok service.
Definition plain_unmarshal (serviceJSON : Service) : result Service :=
  Ok serviceJSON.

(** The record of the spec's scenario, and payloads a caller may send. *)
Definition svc_a : Service := mkService "svc-a" "10.0.0.1:9000" 0.
Definition svc_a_moved : Service := mkService "svc-a" "10.0.0.2:9000" 0.
Definition svc_a_other : Service := mkService "svc-a" "10.0.0.9:9000" 0.
Definition svc_b : Service := mkService "svc-b" "10.0.0.3:9000" 0.
Definition svc_blank : Service := mkService "svc-a" "" 0.

(** ** The gin response writer *)

Definition StatusOK : nat := 200.
Definition StatusBadRequest : nat := 400.
Definition StatusNotFound : nat := 404.
Definition StatusConflict : nat := 409.
Definition StatusInternalServerError : nat := 500.

(** What a handler hands to [c.JSON]: a [gin.H] with one field, a
    record, or the map of all records. *)
Inductive payload :=
  | H_error (msg : string)
  | H_message (msg : string)
  | H_status (msg : string)
  | J_service (service : Service)
  | J_services (services : gmap string Service).

(** A [gin.Context] seen from outside: the [c.JSON] calls in order. *)
Definition Context := list (nat * payload).

Definition JSON (code : nat) (obj : payload) (c : Context) : Context :=
  c ++ [(code, obj)].

(** The status line goes out with the first write; gin refuses to
    override it afterwards. *)
Definition status (c : Context) : option nat := fst <$> head c.

(** ** part_000: the first in-memory server *)

Module Mem0.

(** [services] is a [map[string]*lib.Service].  Every pointer stored
    in it is the address of a handler-local variable that is stored
    under one key only, so entries never alias and the map is
    modelled by value. *)

Definition registerService (bound : result Service)
    (services : gmap string Service) : gmap string Service * Context :=
  match bound with
  | Err err => (services, JSON StatusBadRequest (H_error (Error err)) [])
  | Ok service =>
      let services := <[Name service := service]> services in
      (services,
       JSON StatusOK (H_message "Service registered successfully") [])
  end.

Definition listServices (services : gmap string Service) : Context :=
  JSON StatusOK (J_services services) [].

Definition getService (name : string)
    (services : gmap string Service) : Context :=
  match services !! name with
  | None => JSON StatusNotFound (H_error "Service not found") []
  | Some service => JSON StatusOK (J_service service) []
  end.

End Mem0.

(** ** main.go, first file: the in-memory server with validation *)

Module Mem.

Definition registerService (bound : result Service) (now : Z)
    (services : gmap string Service) : gmap string Service * Context :=
  match bound with
  | Err err => (services, JSON StatusBadRequest (H_error (Error err)) [])
  | Ok service =>
      match validateService service with
      | Some err =>
          (services, JSON StatusBadRequest (H_error (Error err)) [])
      | None =>
          let service := set_LastHeartbeat now service in
          let services := <[Name service := service]> services in
          (services,
           JSON StatusOK (H_message "Service registered successfully") [])
      end
  end.

(** The validation branch writes the 400 and, having no [return],
    falls through to the locked section. *)
Definition updateService (name : string) (bound : result Service)
    (now : Z) (services : gmap string Service)
    : gmap string Service * Context :=
  match bound with
  | Err err => (services, JSON StatusBadRequest (H_error (Error err)) [])
  | Ok service =>
      let c :=
        match validateService service with
        | Some err => JSON StatusBadRequest (H_error (Error err)) []
        | None => []
        end in
      match services !! name with
      | None =>
          (services, JSON StatusNotFound (H_error "Service not found.") c)
      | Some _ =>
          let service := set_LastHeartbeat now service in
          let services := <[name := service]> services in
          (services,
           JSON StatusOK (H_message "Service updated sucessfully.") c)
      end
  end.

Definition deleteService (name : string)
    (services : gmap string Service) : gmap string Service * Context :=
  match services !! name with
  | None =>
      (services, JSON StatusNotFound (H_error "Service not found") [])
  | Some _ =>
      (delete name services,
       JSON StatusOK (H_message "Service deleted successfully") [])
  end.

Definition listServices (services : gmap string Service) : Context :=
  JSON StatusOK (J_services services) [].

Definition getService (name : string)
    (services : gmap string Service) : Context :=
  match services !! name with
  | None => JSON StatusNotFound (H_error "Service not found") []
  | Some service => JSON StatusOK (J_service service) []
  end.

(** [service.LastHeartbeat = time.Now()] through the stored pointer. *)
Definition healthCheck (name : string) (now : Z)
    (services : gmap string Service) : gmap string Service * Context :=
  match services !! name with
  | None =>
      (services, JSON StatusNotFound (H_error "Service not found") [])
  | Some service =>
      (<[name := set_LastHeartbeat now service]> services,
       JSON StatusOK (H_message "Health check successful") [])
  end.

Definition healthHandler : Context := JSON StatusOK (H_status "up") [].

End Mem.

(** What the in-memory store is meant to hold: each record sits under
    its own name and passes [validateService]. *)
Definition keyed_and_valid (services : gmap string Service) : Prop :=
  ∀ name service,
    services !! name = Some service →
    Name service = name ∧ validateService service = None.

(** ** main.go, second file: the Redis and Kafka server *)

Module Redis.
Section Server.

(** The JSON text of a record is a value of type [V]; [json.Marshal]
    and [json.Unmarshal] at [lib.Service] come from the Go standard
    library and are taken as the two maps of a codec. *)
Context {V : Type}.
Variable marshal : Service → result V.
Variable unmarshal : V → result Service.

(** *** The store boundary

    One keyspace holds both the records (strings) and the index set,
    as in Redis. *)
Inductive rvalue :=
  | RString (v : V)
  | RSet (members : gset string).

(** The commands the server sends, and [log.Printf]. *)
Inductive op :=
  | Exists (key : string)
  | Get (key : string)
  | Set_ (key : string) (value : V)
  | Del (key : string)
  | SAdd (key member : string)
  | SRem (key member : string)
  | SMembers (key : string)
  | Watch (key : string)
  | Unwatch
  | TxSet (key : string) (value : V)   (* MULTI; SET key value; EXEC *)
  | Printf (line : string).

(** What [.Result()] holds besides the error. *)
Definition ret (o : op) : Type :=
  match o with
  | Exists _ | Del _ | SAdd _ _ | SRem _ _ => Z
  | Get _ => V
  | SMembers _ => list string
  | Set_ _ _ | Watch _ | Unwatch | TxSet _ _ | Printf _ => unit
  end.

(** A connection remembers the revision of each key it watches. *)
Abbreviation conn := (gmap string nat).

Record world := mkWorld {
  db : gmap string rvalue;
  rev : gmap string nat;      (* modifications seen by each key *)
  faults : list bool;         (* true: the next command fails in transit *)
  trace : list op             (* every command issued, oldest first *)
}.

Definition revision (rv : gmap string nat) (key : string) : nat :=
  default 0 (rv !! key).

Definition touch (key : string) (rv : gmap string nat) : gmap string nat :=
  <[key := S (revision rv key)]> rv.

Definition WRONGTYPE : error :=
  Errorf "WRONGTYPE Operation against a key holding the wrong kind of value".

Definition io_timeout : error := Errorf "i/o timeout".

(** EXEC goes through when no watched key was modified since WATCH. *)
Definition unmodified (c : conn) (rv : gmap string nat) : bool :=
  bool_decide (map_Forall (λ key r, revision rv key = r) c).

(** The effect of a command that reaches the server. *)
Definition apply (o : op) (c : conn) (d : gmap string rvalue)
    (rv : gmap string nat)
    : result (ret o) * conn * gmap string rvalue * gmap string nat :=
  match o return result (ret o) * conn * gmap string rvalue
                 * gmap string nat with
  | Exists key =>
      (Ok (if d !! key is Some _ then 1%Z else 0%Z), c, d, rv)
  | Get key =>
      match d !! key with
      | None => (Err RedisNil, c, d, rv)
      | Some (RString v) => (Ok v, c, d, rv)
      | Some (RSet _) => (Err WRONGTYPE, c, d, rv)
      end
  | Set_ key value =>
      (Ok (), c, <[key := RString value]> d, touch key rv)
  | Del key =>
      match d !! key with
      | None => (Ok 0%Z, c, d, rv)
      | Some _ => (Ok 1%Z, c, delete key d, touch key rv)
      end
  | SAdd key member =>
      match d !! key with
      | None => (Ok 1%Z, c, <[key := RSet {[member]}]> d, touch key rv)
      | Some (RSet s) =>
          if decide (member ∈ s) then (Ok 0%Z, c, d, rv)
          else (Ok 1%Z, c, <[key := RSet ({[member]} ∪ s)]> d, touch key rv)
      | Some (RString _) => (Err WRONGTYPE, c, d, rv)
      end
  | SRem key member =>
      match d !! key with
      | None => (Ok 0%Z, c, d, rv)
      | Some (RSet s) =>
          if decide (member ∈ s) then
            let s' := s ∖ {[member]} in
            (Ok 1%Z, c,
             if decide (s' = ∅) then delete key d
             else <[key := RSet s']> d,
             touch key rv)
          else (Ok 0%Z, c, d, rv)
      | Some (RString _) => (Err WRONGTYPE, c, d, rv)
      end
  | SMembers key =>
      match d !! key with
      | None => (Ok [], c, d, rv)
      | Some (RSet s) => (Ok (elements s), c, d, rv)
      | Some (RString _) => (Err WRONGTYPE, c, d, rv)
      end
  | Watch key =>
      (Ok (), <[key := revision rv key]> c, d, rv)
  | Unwatch =>
      (Ok (), ∅, d, rv)
  | TxSet key value =>
      if unmodified c rv then
        (Ok (), ∅, <[key := RString value]> d, touch key rv)
      else (Err TxFailedErr, ∅, d, rv)
  | Printf _ => (Ok (), c, d, rv)
  end.

Definition is_Printf (o : op) : bool :=
  match o with Printf _ => true | _ => false end.

(** One command on the wire.  A command lost in transit has no effect
    on the server; [log.Printf] never touches the wire. *)
Definition exec (o : op) (c : conn) (w : world)
    : result (ret o) * conn * world :=
  let tr := trace w ++ [o] in
  match is_Printf o, faults w with
  | false, true :: fs => (Err io_timeout, c, mkWorld (db w) (rev w) fs tr)
  | printf, fs =>
      let '(r, c', d', rv') := apply o c (db w) (rev w) in
      (r, c', mkWorld d' rv' (if printf then fs else tail fs) tr)
  end.

(** *** Handlers as command sequences

    A handler is a tree of commands: each node issues one command and
    continues with its reply.  Between two commands of one request
    the commands of other requests may reach the server. *)
Inductive prog (A : Type) :=
  | Ret (a : A)
  | Do (o : op) (k : result (ret o) → prog A).
Arguments Ret {A} a.
Arguments Do {A} o k.

Fixpoint bind {A B} (p : prog A) (f : A → prog B) : prog B :=
  match p with
  | Ret a => f a
  | Do o k => Do o (λ r, bind (k r) f)
  end.

#[local] Instance prog_ret : MRet prog := @Ret.
#[local] Instance prog_bind : MBind prog := λ A B f p, bind p f.

Definition call (o : op) : prog (result (ret o)) := Do o Ret.

Definition log_Printf (line : string) : prog unit :=
  Do (Printf line) (λ _, Ret ()).

(** Running a command sequence with nothing in between. *)
Fixpoint run {A} (p : prog A) (c : conn) (w : world) : A * conn * world :=
  match p with
  | Ret a => (a, c, w)
  | Do o k => let '(r, c', w') := exec o c w in run (k r) c' w'
  end.

(** A request served alone, on a fresh connection. *)
Definition serve {A} (p : prog A) (w : world) : A * world :=
  let '(a, _, w') := run p ∅ w in (a, w').

(** go-redis [Client.Watch]: WATCH the key, run [fn], and UNWATCH on
    the way out ([defer tx.Close]), whose error is dropped. *)
Definition Client_Watch (fn : prog (option error)) (key : string)
    : prog (option error) :=
  r ← call (Watch key);
  match r with
  | Err err => _ ← call Unwatch; Ret (Some err)
  | Ok _ => err ← fn; _ ← call Unwatch; Ret err
  end.

(** go-redis [Tx.TxPipelined] with the single queued SET: queueing
    cannot fail, EXEC answers [TxFailedErr] when it was aborted. *)
Definition TxPipelined_Set (key : string) (value : V)
    : prog (option error) :=
  r ← call (TxSet key value);
  match r with
  | Err err => Ret (Some err)
  | Ok _ => Ret None
  end.

Definition all_services : string := "all:services".

(** *** The Kafka consumer *)

(** What [reader.ReadMessage] returns. *)
Inductive read_result :=
  | ReadError (err : error)
  | Message (value : V).

(** One turn of the [for] loop of [registerService]; every
    [continue] ends the turn. *)
Definition registerService_turn (msg : read_result) (now : Z) : prog unit :=
  match msg with
  | ReadError err => log_Printf ("Error reading message: " +:+ Error err)
  | Message value =>
      match unmarshal value with
      | Err err =>
          log_Printf ("Error unmarshaling service data: " +:+ Error err)
      | Ok service =>
          let service := set_LastHeartbeat now service in
          match marshal service with
          | Err err =>
              log_Printf ("Error marshaling service: " +:+ Error err)
          | Ok serviceJSON =>
              r ← call (Set_ (Name service) serviceJSON);
              match r with
              | Err err =>
                  log_Printf ("Error registering service: " +:+ Error err)
              | Ok _ =>
                  r ← call (SAdd all_services (Name service));
                  match r with
                  | Err err =>
                      log_Printf
                        ("Error adding service to set: " +:+ Error err)
                  | Ok _ =>
                      log_Printf
                        ("Service registered: " +:+ Name service)
                  end
              end
          end
      end
  end.

(** The loop never ends by itself; it is run on the finite prefix of
    the reader's results (each with the clock reading of its turn)
    that has arrived so far. *)
Fixpoint registerService (reader : list (read_result * Z)) : prog unit :=
  match reader with
  | [] => Ret ()
  | (msg, now) :: reader =>
      _ ← registerService_turn msg now; registerService reader
  end.

(** *** The HTTP handlers *)

Definition updateService (name : string) (bound : result Service)
    (now : Z) : prog Context :=
  match bound with
  | Err err => Ret (JSON StatusBadRequest (H_error (Error err)) [])
  | Ok service =>
      match validateService service with
      | Some err => Ret (JSON StatusBadRequest (H_error (Error err)) [])
      | None =>
          err ← Client_Watch
            (r ← call (Exists name);
             match r with
             | Err err => Ret (Some err)
             | Ok exists_ =>
                 if decide (exists_ = 0%Z) then
                   Ret (Some (Errorf "service not found"))
                 else
                   let service := set_LastHeartbeat now service in
                   match marshal service with
                   | Err err => Ret (Some err)
                   | Ok serviceJSON => TxPipelined_Set name serviceJSON
                   end
             end) name;
          match err with
          | Some err =>
              if decide (err = TxFailedErr) then
                Ret (JSON StatusConflict
                       (H_error "Transaction failed, please try again") [])
              else if decide (Error err = "service not found") then
                Ret (JSON StatusNotFound (H_error "Service not found") [])
              else
                Ret (JSON StatusInternalServerError
                       (H_error "Failed to update service") [])
          | None =>
              Ret (JSON StatusOK
                     (H_message "Service updated sucessfully.") [])
          end
      end
  end.

Definition deleteService (name : string) : prog Context :=
  r ← call (Exists name);
  match r with
  | Err _ =>
      Ret (JSON StatusInternalServerError
             (H_error "Failed to check service existence") [])
  | Ok exists_ =>
      if decide (exists_ = 0%Z) then
        Ret (JSON StatusNotFound (H_error "Service not found") [])
      else
        r ← call (Del name);
        match r with
        | Err _ =>
            Ret (JSON StatusInternalServerError
                   (H_error "Failed to delete service") [])
        | Ok _ =>
            r ← call (SRem all_services name);
            match r with
            | Err _ =>
                Ret (JSON StatusInternalServerError
                       (H_error "Failed to remove service from set") [])
            | Ok _ =>
                Ret (JSON StatusOK
                       (H_message "Service deleted successfully") [])
            end
        end
  end.

(** The [range] loop of [listServices] over the member names. *)
Fixpoint listServices_range (serviceNames : list string)
    (services : gmap string Service) : prog (gmap string Service) :=
  match serviceNames with
  | [] => Ret services
  | name :: serviceNames =>
      r ← call (Get name);
      match r with
      | Err err =>
          _ ← log_Printf ("Failed to get service " +:+ name +:+ ": "
                          +:+ Error err);
          listServices_range serviceNames services
      | Ok serviceJSON =>
          match unmarshal serviceJSON with
          | Err err =>
              _ ← log_Printf ("Failed to unmarshal service " +:+ name
                              +:+ ": " +:+ Error err);
              listServices_range serviceNames services
          | Ok service =>
              listServices_range serviceNames (<[name := service]> services)
          end
      end
  end.

Definition listServices : prog Context :=
  r ← call (SMembers all_services);
  match r with
  | Err _ =>
      Ret (JSON StatusInternalServerError
             (H_error "Failed to list services") [])
  | Ok serviceNames =>
      services ← listServices_range serviceNames ∅;
      Ret (JSON StatusOK (J_services services) [])
  end.

Definition getService (name : string) : prog Context :=
  r ← call (Get name);
  match r with
  | Err err =>
      if decide (err = RedisNil) then
        Ret (JSON StatusNotFound (H_error "Service not found") [])
      else
        Ret (JSON StatusInternalServerError
               (H_error "Failed to get service") [])
  | Ok serviceJSON =>
      match unmarshal serviceJSON with
      | Err _ =>
          Ret (JSON StatusInternalServerError
                 (H_error "Failed to unmarshal service") [])
      | Ok service => Ret (JSON StatusOK (J_service service) [])
      end
  end.

Definition healthCheck (name : string) (now : Z) : prog Context :=
  err ← Client_Watch
    (r ← call (Exists name);
     match r with
     | Err err => Ret (Some err)
     | Ok exists_ =>
         if decide (exists_ = 0%Z) then
           Ret (Some (Errorf "service not found"))
         else
           r ← call (Get name);
           match r with
           | Err err => Ret (Some err)
           | Ok serviceJSON =>
               match unmarshal serviceJSON with
               | Err err => Ret (Some err)
               | Ok service =>
                   let service := set_LastHeartbeat now service in
                   match marshal service with
                   | Err err => Ret (Some err)
                   | Ok updatedServiceJSON =>
                       TxPipelined_Set name updatedServiceJSON
                   end
               end
           end
     end) name;
  match err with
  | Some err =>
      if decide (err = TxFailedErr) then
        Ret (JSON StatusConflict
               (H_error "Transaction failed, please try again") [])
      else if decide (Error err = "service not found") then
        Ret (JSON StatusNotFound (H_error "Service not found") [])
      else
        Ret (JSON StatusInternalServerError
               (H_error "Failed to update service health") [])
  | None => Ret (JSON StatusOK (H_message "Health check successful") [])
  end.

Definition healthHandler : Context := JSON StatusOK (H_status "up") [].

(** *** Concurrent requests

    Requests in flight are threads: each has its own connection and
    the commands it has still to send.  A step lets one of them send
    its next command; a schedule is the order in which the server
    receives the commands. *)
Definition thread : Type := conn * prog Context.

Definition advance (t : thread) (w : world) : thread * world :=
  match t.2 with
  | Ret _ => (t, w)
  | Do o k => let '(r, c', w') := exec o t.1 w in ((c', k r), w')
  end.

Definition step (i : nat) (cfg : list thread * world)
    : list thread * world :=
  match cfg.1 !! i with
  | Some t => let '(t', w') := advance t cfg.2 in (<[i := t']> cfg.1, w')
  | None => cfg
  end.

Definition schedule (sch : list nat) (cfg : list thread * world)
    : list thread * world :=
  foldl (λ cfg i, step i cfg) cfg sch.

(** The response of a thread that has nothing left to send. *)
Definition response (t : thread) : option Context :=
  match t.2 with
  | Ret ctx => Some ctx
  | Do _ _ => None
  end.

(** A thread races on [key] when its connection watches the key at
    the revision the key has now: its transaction is open and nobody
    has written the key since. *)
Definition watching (key : string) (w : world) (t : thread) : Prop :=
  t.1 !! key = Some (revision (rev w) key).

(** *** Program points of [updateService]

    The points a valid update of an existing key goes through when no
    command is lost: before WATCH, before EXISTS, before EXEC, before
    UNWATCH (the transaction went through or not), and replied. *)
Inductive phase :=
  | Fresh
  | Watched
  | Checked
  | Decided (committed : bool)
  | Replied (committed : bool).

(** The reply that lets a command through, and the one that aborts
    the transaction. *)
Definition granted (o : op) : result (ret o) :=
  match o return result (ret o) with
  | Exists _ => Ok 1%Z
  | Del _ | SAdd _ _ | SRem _ _ => Ok 0%Z
  | Get _ => Err RedisNil
  | SMembers _ => Ok []
  | Set_ _ _ | Watch _ | Unwatch | TxSet _ _ | Printf _ => Ok ()
  end.

Definition refused (o : op) : result (ret o) :=
  match o return result (ret o) with
  | TxSet _ _ => Err TxFailedErr
  | o => granted o
  end.

Definition next {A} (p : prog A) (reply : ∀ o, result (ret o)) : prog A :=
  match p with
  | Ret a => Ret a
  | Do o k => k (reply o)
  end.

Definition at_phase (name : string) (service : Service) (now : Z)
    (ph : phase) : prog Context :=
  let fresh := updateService name (Ok service) now in
  let watched := next fresh granted in
  let checked := next watched granted in
  let decided (committed : bool) :=
    next checked (if committed then granted else refused) in
  match ph with
  | Fresh => fresh
  | Watched => watched
  | Checked => checked
  | Decided committed => decided committed
  | Replied committed => next (decided committed) granted
  end.

(** What holds of one update request at any moment. *)
Definition update_thread (name : string) (service : Service) (now : Z)
    (t : thread) : Prop :=
  ∃ ph, t.2 = at_phase name service now ph
        ∧ match ph with
          | Watched | Checked => ∃ r, t.1 = {[name := r]}
          | _ => t.1 = ∅
          end.

(** A command that only reads leaves database and revisions alone. *)
Definition same_store (w w' : world) : Prop :=
  db w' = db w ∧ rev w' = rev w ∧ faults w' = faults w.

Definition started (name : string) (service1 service2 : Service)
    (now1 now2 : Z) (cfg : list thread * world) : Prop :=
  faults cfg.2 = []
  ∧ is_Some (db cfg.2 !! name)
  ∧ ∃ t1 t2, cfg.1 = [t1; t2]
      ∧ update_thread name service1 now1 t1
      ∧ update_thread name service2 now2 t2.

(** Two update requests on [name], from the moment both watch its
    current revision: either both still do, or one has committed its
    record and the other watches a stale revision or was aborted. *)
Definition open_ (name : string) (service : Service) (now : Z)
    (w : world) (t : thread) : Prop :=
  t.1 = {[name := revision (rev w) name]}
  ∧ (t.2 = at_phase name service now Watched
     ∨ t.2 = at_phase name service now Checked).

Definition won (name : string) (service : Service) (now : Z)
    (t : thread) : Prop :=
  t.1 = ∅
  ∧ (t.2 = at_phase name service now (Decided true)
     ∨ t.2 = at_phase name service now (Replied true)).

Definition lost (name : string) (service : Service) (now : Z)
    (w : world) (t : thread) : Prop :=
  (∃ r, r ≠ revision (rev w) name ∧ t.1 = {[name := r]}
        ∧ (t.2 = at_phase name service now Watched
           ∨ t.2 = at_phase name service now Checked))
  ∨ (t.1 = ∅
     ∧ (t.2 = at_phase name service now (Decided false)
        ∨ t.2 = at_phase name service now (Replied false))).

Definition race (name : string) (service1 service2 : Service)
    (now1 now2 : Z) (json1 json2 : V) (cfg : list thread * world) : Prop :=
  faults cfg.2 = []
  ∧ ∃ t1 t2, cfg.1 = [t1; t2]
      ∧ ((is_Some (db cfg.2 !! name)
          ∧ open_ name service1 now1 cfg.2 t1
          ∧ open_ name service2 now2 cfg.2 t2)
         ∨ (db cfg.2 !! name = Some (RString json1)
            ∧ won name service1 now1 t1
            ∧ lost name service2 now2 cfg.2 t2)
         ∨ (db cfg.2 !! name = Some (RString json2)
            ∧ lost name service1 now1 cfg.2 t1
            ∧ won name service2 now2 t2)).

(** *** What a reader finds under a key

    The record a GET of [key] followed by [json.Unmarshal] yields, if
    both succeed. *)
Definition record_at (d : gmap string rvalue) (key : string)
    : option Service :=
  match d !! key with
  | Some (RString v) =>
      match unmarshal v with
      | Ok service => Some service
      | Err _ => None
      end
  | _ => None
  end.

(** The members of the index set; none when the key is missing. *)
Definition index_of (d : gmap string rvalue) : option (gset string) :=
  match d !! all_services with
  | None => Some ∅
  | Some (RSet s) => Some s
  | Some (RString _) => None
  end.

(** What the [range] loop of [listServices] gathers from the names
    when every read reaches the server. *)
Definition collect (d : gmap string rvalue) (serviceNames : list string)
    (services : gmap string Service) : gmap string Service :=
  foldl (λ services name,
           match record_at d name with
           | Some service => <[name := service]> services
           | None => services
           end) services serviceNames.

(** The database after a registration whose SET and SADD both reach
    the server: the record under its name, and the name in the index
    set unless the index key holds a string. *)
Definition registered_in (d : gmap string rvalue) (name : string)
    (serviceJSON : V) : gmap string rvalue :=
  let d := <[name := RString serviceJSON]> d in
  match d !! all_services with
  | None => <[all_services := RSet {[name]}]> d
  | Some (RSet s) =>
      if decide (name ∈ s) then d
      else <[all_services := RSet ({[name]} ∪ s)]> d
  | Some (RString _) => d
  end.

(** The database after a delete whose DEL and SREM both reach the
    server. *)
Definition unregistered_from (d : gmap string rvalue) (name : string)
    : gmap string rvalue :=
  let d := delete name d in
  match d !! all_services with
  | Some (RSet s) =>
      if decide (name ∈ s) then
        if decide (s ∖ {[name]} = ∅) then delete all_services d
        else <[all_services := RSet (s ∖ {[name]})]> d
      else d
  | _ => d
  end.

(** *** Program points of [healthCheck]

    The points a heartbeat of an existing, decodable record goes
    through when no command is lost: before WATCH, before EXISTS,
    before GET, before EXEC (with the value GET answered), before
    UNWATCH, and replied. *)
Inductive hphase :=
  | HFresh
  | HWatched
  | HChecked
  | HRead (serviceJSON : V)
  | HDecided (serviceJSON : V) (committed : bool)
  | HReplied (serviceJSON : V) (committed : bool).

(** The reply of a GET that finds [v]. *)
Definition got (v : V) (o : op) : result (ret o) :=
  match o return result (ret o) with
  | Get _ => Ok v
  | o => granted o
  end.

Definition at_hphase (name : string) (now : Z) (ph : hphase)
    : prog Context :=
  let fresh := healthCheck name now in
  let watched := next fresh granted in
  let checked := next watched granted in
  let read v := next checked (got v) in
  let decided v (committed : bool) :=
    next (read v) (if committed then granted else refused) in
  match ph with
  | HFresh => fresh
  | HWatched => watched
  | HChecked => checked
  | HRead v => read v
  | HDecided v committed => decided v committed
  | HReplied v committed => next (decided v committed) granted
  end.

(** Two records of the same service: same name, same address. *)
Definition same_identity (s s' : Service) : Prop :=
  Name s = Name s' ∧ Address s = Address s'.

(** An update request beside a heartbeat: where it is in its handler,
    what its connection watches, and, once it has committed, that the
    stored record [s] is still the service it wrote. *)
Definition updater_ok (name : string) (service : Service) (now : Z)
    (s : Service) (t : thread) : Prop :=
  ∃ ph, t.2 = at_phase name service now ph
        ∧ match ph with
          | Watched | Checked => ∃ r, t.1 = {[name := r]}
          | _ => t.1 = ∅
          end
        ∧ match ph with
          | Decided true | Replied true => same_identity s service
          | _ => True
          end.

(** A heartbeat request: where it is, that it never watches a revision
    of the future, and that the record it has read is the stored
    service as long as nobody wrote the key since its WATCH. *)
Definition beater_ok (name : string) (now : Z) (w : world) (s : Service)
    (t : thread) : Prop :=
  ∃ ph, t.2 = at_hphase name now ph
        ∧ match ph with
          | HFresh => t.1 = ∅
          | HWatched | HChecked =>
              ∃ r : nat, t.1 = {[name := r]} ∧ (r ≤ revision (rev w) name)%nat
          | HRead v =>
              ∃ (r : nat) sv, t.1 = {[name := r]}
                      ∧ (r ≤ revision (rev w) name)%nat
                      ∧ unmarshal v = Ok sv
                      ∧ (r = revision (rev w) name → same_identity sv s)
          | HDecided v _ | HReplied v _ =>
              t.1 = ∅ ∧ ∃ sv, unmarshal v = Ok sv
          end.

(** An update and a heartbeat of [name] in flight over a store whose
    record of [name] decodes to [s]. *)
Definition guarded (name : string) (service : Service) (nowU nowH : Z)
    (cfg : list thread * world) : Prop :=
  faults cfg.2 = []
  ∧ ∃ tU tH v s,
      cfg.1 = [tU; tH]
      ∧ db cfg.2 !! name = Some (RString v)
      ∧ unmarshal v = Ok s
      ∧ updater_ok name service nowU s tU
      ∧ beater_ok name nowH cfg.2 s tH.

(** *** Properties *)

Implicit Types (w : world) (c : conn) (name : string) (service : Service).

(** Symbolic execution: use what is known of the store and of the
    codec, split on the fate of the next command on the wire, and
    reduce to the following command. *)
(** A transaction that watched a key a moment ago finds it as it
    left it. *)
Lemma unmodified_fresh key rv :
  unmodified (<[key := revision rv key]> ∅) rv = true.
Proof.
  apply bool_decide_eq_true, map_Forall_insert_2;
    [done | apply map_Forall_empty].
Qed.

Ltac by_cases :=
  match goal with
  | |- context [@decide ?P ?dec] => destruct (@decide P dec)
  | H : context [@decide ?P ?dec] |- _ => destruct (@decide P dec)
  end.

Ltac known :=
  match goal with
  | H : _ !! _ = _ |- _ => progress rewrite H
  | H : marshal _ = _ |- _ => progress rewrite H
  | H : unmarshal _ = _ |- _ => progress rewrite H
  | |- context [unmodified (<[?k := revision ?rv ?k]> ∅) ?rv] =>
      rewrite (unmodified_fresh k rv)
  end.

Ltac wire_step :=
  cbn in *;
  first
    [ known
    | match goal with
      | |- context [match ?fs with [] => _ | _ :: _ => _ end] =>
          is_var fs; destruct fs as [|[] ?]
      end
    | by_cases; try done ].

Ltac wire := repeat wire_step; cbn in *.

(** The same, splitting also on what is not known. *)
Ltac unknown :=
  match goal with
  | |- context [marshal ?x] => destruct (marshal x) eqn:?
  | |- context [unmarshal ?x] => destruct (unmarshal x) eqn:?
  | |- context [?d !! ?k] =>
      match type of (d !! k) with
      | option rvalue => destruct (d !! k) as [[]|] eqn:?
      end
  end.

Ltac wire_cases :=
  repeat first
    [ wire_step
    | cbn in *; match goal with |- context [@run] => unknown end ];
  cbn in *.

Lemma status_JSON code obj : status (JSON code obj []) = Some code.
Proof. reflexivity. Qed.

Lemma validateService_None service :
  validateService service = None ↔ Name service ≠ "" ∧ Address service ≠ "".
Proof.
  unfold validateService.
  destruct (decide (Name service = "")), (decide (Address service = ""));
    intuition (eauto; congruence).
Qed.

Lemma validateService_Some service :
  Name service = "" ∨ Address service = "" →
  ∃ err, validateService service = Some err.
Proof.
  unfold validateService.
  destruct (decide (Name service = "")), (decide (Address service = ""));
    intuition (eauto; congruence).
Qed.

(** C2, as amended.  A payload with an empty name or an empty address
    is answered 400 by the register handler of the in-memory server of
    main.go and by the update handler of the Redis server, and neither
    touches its store: the map is the same, and the world (database,
    revisions, commands sent) is the same. *)
Theorem validation_gate service :
  Name service = "" ∨ Address service = "" →
  (∀ now services, ∃ ctx,
      Mem.registerService (Ok service) now services = (services, ctx)
      ∧ status ctx = Some StatusBadRequest)
  ∧ (∀ name now w, ∃ ctx,
      serve (updateService name (Ok service) now) w = (ctx, w)
      ∧ status ctx = Some StatusBadRequest).
Proof.
  intros [err Herr]%validateService_Some. split.
  - intros now services. unfold Mem.registerService. rewrite Herr.
    eexists; split; [reflexivity | apply status_JSON].
  - intros name now w. unfold updateService. rewrite Herr.
    eexists; split; [reflexivity | apply status_JSON].
Qed.



(** C5.  On a key that is absent from the store, update and heartbeat
    leave the database as it is, whatever the payload and whatever
    commands are lost: no record is created.  When the request reaches
    the transaction (a valid payload, for update) and no command is
    lost, the answer is 404. *)
Theorem absent_key_not_created name w :
  db w !! name = None →
  (∀ service now,
      db (serve (updateService name (Ok service) now) w).2 = db w
      ∧ (validateService service = None → faults w = [] →
         status (serve (updateService name (Ok service) now) w).1
         = Some StatusNotFound))
  ∧ (∀ now,
      db (serve (healthCheck name now) w).2 = db w
      ∧ (faults w = [] →
         status (serve (healthCheck name now) w).1 = Some StatusNotFound)).
Proof.
  intros Habs. destruct w as [d rv fs tr]. simpl in Habs. split.
  - intros service now. unfold updateService, serve.
    destruct (validateService service) eqn:Hv.
    + split; [reflexivity | discriminate].
    + split; [| intros _ Hf; simpl in Hf; subst fs]; wire; done.
  - intros now. unfold healthCheck, serve.
    split; [| intros Hf; simpl in Hf; subst fs]; wire; done.
Qed.

Lemma run_bind {A B} (p : prog A) (f : A → prog B) c w :
  run (bind p f) c w = let '(a, c', w') := run p c w in run (f a) c' w'.
Proof.
  revert c w. induction p as [a | o k IH]; intros c w; [reflexivity |].
  cbn. destruct (exec o c w) as [[r c'] w']. apply IH.
Qed.

(** The [range] loop of [listServices] reads and never writes, and
    whatever it adds to the result was read as a string under its
    own name. *)
Lemma listServices_range_spec serviceNames :
  ∀ services c w,
    db (run (listServices_range serviceNames services) c w).2 = db w
    ∧ ∀ name,
        is_Some ((run (listServices_range serviceNames services) c w).1.1
                   !! name) →
        is_Some (services !! name)
        ∨ name ∈ serviceNames ∧ ∃ v, db w !! name = Some (RString v).
Proof.
  induction serviceNames as [| n serviceNames IH]; intros services c w.
  - cbn. auto.
  - destruct w as [d rv fs tr].
    assert (∀ c' fs' tr' services',
      (is_Some (services' !! n) → is_Some (services !! n)
                                  ∨ ∃ v, d !! n = Some (RString v)) →
      (∀ k, k ≠ n → services' !! k = services !! k) →
      db (run (listServices_range serviceNames services') c'
            (mkWorld d rv fs' tr')).2 = d
      ∧ ∀ name,
          is_Some ((run (listServices_range serviceNames services') c'
                      (mkWorld d rv fs' tr')).1.1 !! name) →
          is_Some (services !! name)
          ∨ name ∈ n :: serviceNames ∧ ∃ v, d !! name = Some (RString v))
      as Hrest.
    { intros c' fs' tr' services' Hn Hother.
      destruct (IH services' c' (mkWorld d rv fs' tr')) as [Hdb Hkeys].
      split; [exact Hdb |]. intros name Hname.
      destruct (Hkeys name Hname) as [Hin | [Hin Hv]].
      - destruct (decide (name = n)) as [-> | Hne].
        + destruct (Hn Hin) as [? | ?]; [by left |].
          right. split; [by left | done].
        + left. by rewrite <- Hother.
      - right. split; [by right | done]. }
    wire_cases; apply Hrest; try done;
      first [ by left | by right; eauto
            | by intros; rewrite lookup_insert_ne ].
Qed.


(** What [listServices] answers with a map holds only names that
    are members of the index set and whose record read succeeded. *)
Lemma listServices_spec w code services name :
  (serve listServices w).1 = JSON code (J_services services) [] →
  is_Some (services !! name) →
  (∃ s, db w !! all_services = Some (RSet s) ∧ name ∈ s)
  ∧ ∃ v, db w !! name = Some (RString v).
Proof.
  destruct w as [d rv fs tr]. unfold serve, listServices.
  cbn [mbind prog_bind call bind run].
  destruct (exec (SMembers all_services) ∅ (mkWorld d rv fs tr))
    as [[r c'] w'] eqn:Hexec.
  assert (db w' = d
          ∧ ∀ names, r = Ok names →
              ∀ n, n ∈ names →
                   ∃ s, d !! all_services = Some (RSet s) ∧ n ∈ s)
    as [Hdb Hnames].
  { revert Hexec. unfold exec. cbn.
    destruct fs as [|[] fs]; cbn;
      destruct (d !! all_services) as [[v|s]|]; cbn;
      intros ?; simplify_eq; (split; [done |]); intros names ? n Hn;
      simplify_eq; try (by apply elem_of_nil in Hn);
      exists s; by rewrite <- elem_of_elements. }
  destruct r as [names | err]; cbn [bind run]; [| by intros [=]].
  unfold mbind, prog_bind. rewrite run_bind.
  pose proof (listServices_range_spec names ∅ c' w') as [_ Hkeys].
  destruct (run (listServices_range names ∅) c' w') as [[m c''] w''].
  cbn in *. intros ? Hname. simplify_eq.
  destruct (Hkeys name Hname) as [Hin | [Hin Hv]].
  - rewrite lookup_empty in Hin. by destruct Hin.
  - split; [by eapply Hnames | done].
Qed.

(** C7.  A delete that answers 200 has sent EXISTS, then DEL of the
    record, then SREM on the index set, in this order.  After it the
    key is gone and the name is not in the index set; a get of the name
    that reaches the server answers 404, and whatever map list answers
    with has no entry for the name.  Delete of an existing key does
    answer 200 when no command is lost and the index key does not hold
    a string. *)
Theorem delete_record_then_index name w :
  (is_Some (db w !! name) →
   (∀ v, db w !! all_services ≠ Some (RString v)) →
   faults w = [] →
   status (serve (deleteService name) w).1 = Some StatusOK)
  ∧ (status (serve (deleteService name) w).1 = Some StatusOK →
     let w' := (serve (deleteService name) w).2 in
     trace w' = trace w ++ [Exists name; Del name; SRem all_services name]
     ∧ db w' !! name = None
     ∧ (∀ s, db w' !! all_services = Some (RSet s) → name ∉ s)
     ∧ (head (faults w') ≠ Some true →
        status (serve (getService name) w').1 = Some StatusNotFound)
     ∧ (∀ code services,
          (serve listServices w').1 = JSON code (J_services services) [] →
          services !! name = None)).
Proof.
  split.
  - intros [v Hv] Hidx Hf. destruct w as [d rv fs tr].
    cbn in Hv, Hidx, Hf. subst fs.
    unfold serve, deleteService. wire_cases; [| done].
    apply lookup_delete_Some in Heqo as [_ ?]. by edestruct Hidx.
  - intros Hok w'.
    assert (trace w' = trace w ++ [Exists name; Del name;
                                   SRem all_services name]
            ∧ db w' !! name = None
            ∧ ∀ s, db w' !! all_services = Some (RSet s) → name ∉ s)
      as (Htr & Hgone & Hidx).
    { subst w'. revert Hok. destruct w as [d rv fs tr].
      unfold serve, deleteService. wire_cases; try done.
      all: intros _;
        repeat match goal with
               | H : delete _ _ !! _ = Some _ |- _ =>
                   apply lookup_delete_Some in H as [? ?]
               end;
        split_and!; [by rewrite <- !app_assoc | | intros s Hs].
      all: rewrite ?lookup_insert, ?lookup_delete in *;
        repeat by_cases; simplify_eq; try done; try set_solver. }
    split_and!; try done.
    + intros Hf. unfold serve, getService.
      destruct w' as [d' rv' fs' tr']. cbn in Hgone, Hf.
      wire; done.
    + intros code services Hlist.
      destruct (services !! name) eqn:Hname; [| done].
      destruct (listServices_spec w' code services name Hlist)
        as [_ [v Hv]]; [done | congruence].
Qed.

(** C9.  The record is deleted and then the SREM on the index set is
    lost: delete answers 500 although the record is gone, and the index
    set still holds the name. *)
Theorem delete_not_atomic name serviceJSON s w fs :
  db w !! name = Some (RString serviceJSON) →
  db w !! all_services = Some (RSet s) →
  name ∈ s →
  faults w = false :: false :: true :: fs →
  let ctx := (serve (deleteService name) w).1 in
  let w' := (serve (deleteService name) w).2 in
  status ctx = Some StatusInternalServerError
  ∧ trace w' = trace w ++ [Exists name; Del name; SRem all_services name]
  ∧ db w' = delete name (db w)
  ∧ db w' !! name = None
  ∧ db w' !! all_services = Some (RSet s).
Proof.
  intros Hrec Hidx Hin Hf. destruct w as [d rv fs0 tr].
  cbn in Hrec, Hidx, Hf. subst fs0.
  unfold serve, deleteService. wire.
  split_and!; try done.
  - by rewrite <- !app_assoc.
  - apply lookup_delete_eq.
  - rewrite lookup_delete_ne; [done | congruence].
Qed.

(** C10.  get sends one command, the GET of the record key, and never
    reads the index set.  For a record stored under its key and absent
    from the index set, get answers 200 with the record while whatever
    map list answers with has no entry for the name. *)
Theorem get_ignores_index name serviceJSON service w :
  db w !! name = Some (RString serviceJSON) →
  unmarshal serviceJSON = Ok service →
  (∀ s, db w !! all_services = Some (RSet s) → name ∉ s) →
  faults w = [] →
  (serve (getService name) w).1 = JSON StatusOK (J_service service) []
  ∧ (∀ w0, trace (serve (getService name) w0).2 = trace w0 ++ [Get name])
  ∧ (∀ code services,
       (serve listServices w).1 = JSON code (J_services services) [] →
       services !! name = None).
Proof.
  intros Hrec Hdec Hidx Hf. split_and!.
  - destruct w as [d rv fs tr]. cbn in Hrec, Hf. subst fs.
    unfold serve, getService. by wire.
  - intros [d rv fs tr]. unfold serve, getService. wire_cases; done.
  - intros code services Hlist.
    destruct (services !! name) eqn:Hname; [| done].
    destruct (listServices_spec w code services name Hlist)
      as [(idx & Hs & Hin) _]; [done |].
    by destruct (Hidx idx Hs).
Qed.

(** C3, the code at the failing inputs.  A queued registration whose
    record fails [validateService] (an empty name or an empty address)
    is not skipped: the turn of the consumer sends the SET and the
    SADD, and the record is in the store under its name. *)
Theorem consumer_skips_validation value service now serviceJSON w :
  unmarshal value = Ok service →
  validateService service ≠ None →
  marshal (set_LastHeartbeat now service) = Ok serviceJSON →
  faults w = [] →
  let w' := (serve (registerService [(Message value, now)]) w).2 in
  db w' !! Name service = Some (RString serviceJSON)
  ∧ ∃ line, trace w' = trace w ++ [Set_ (Name service) serviceJSON;
                                   SAdd all_services (Name service);
                                   Printf line].
Proof.
  intros Hdec _ Henc Hf. destruct w as [d rv fs tr]. cbn in Hf. subst fs.
  unfold serve, registerService, registerService_turn. wire.
  rewrite lookup_insert. by_cases; wire;
    [| destruct (d !! all_services) as [[v|s]|] eqn:Hidx; wire ].
  all: split;
    [ rewrite ?lookup_insert_ne by congruence; apply lookup_insert_eq
    | eexists; by rewrite <- !app_assoc ].
Qed.

(** C4, as amended.  An update that answers 200 was sent for a key
    that exists and replaces the value under that key, and under no
    other key, by the caller's payload with the fresh heartbeat: the
    key cannot change.  The name field of the stored record is the one
    of the payload, hence equal to the key when the caller sent the
    same name, which the code assumes and does not check. *)
Theorem update_replaces_under_key name service now :
  (∀ services,
      status (Mem.updateService name (Ok service) now services).2
      = Some StatusOK →
      is_Some (services !! name)
      ∧ (Mem.updateService name (Ok service) now services).1
        = <[name := set_LastHeartbeat now service]> services)
  ∧ (∀ w,
      status (serve (updateService name (Ok service) now) w).1
      = Some StatusOK →
      is_Some (db w !! name)
      ∧ ∃ serviceJSON,
          marshal (set_LastHeartbeat now service) = Ok serviceJSON
          ∧ db (serve (updateService name (Ok service) now) w).2
            = <[name := RString serviceJSON]> (db w)).
Proof.
  split.
  - intros services. unfold Mem.updateService.
    destruct (validateService service), (services !! name); cbn;
      by eauto.
  - intros [d rv fs tr]. unfold serve, updateService.
    destruct (validateService service); [done |].
    wire_cases; try done.
    all: intros _; split; [by destruct (d !! name) | eauto].
Qed.

(** One turn of the consumer leaves the connection as it found it. *)
Lemma registerService_turn_conn msg now c w :
  (run (registerService_turn msg now) c w).1.2 = c.
Proof.
  destruct w as [d rv fs tr]. unfold registerService_turn.
  destruct msg as [err | value]; wire_cases; done.
Qed.

Lemma registerService_app reader1 reader2 c w :
  run (registerService (reader1 ++ reader2)) c w
  = run (registerService reader2) c (run (registerService reader1) c w).2.
Proof.
  revert w. induction reader1 as [| [msg now] reader1 IH]; intros w.
  - reflexivity.
  - cbn [app registerService]. unfold mbind, prog_bind.
    rewrite !run_bind.
    pose proof (registerService_turn_conn msg now c w) as Hc.
    destruct (run (registerService_turn msg now) c w) as [[[] c'] w'].
    cbn in Hc. subst c'. apply IH.
Qed.

(** C6, as amended.  For a message that decodes to a record, the turn
    of the consumer always sends the SET of the record and sends the
    SADD on the index set only after the SET succeeded.  A failure of
    either is logged and ends the turn: a lost SET leaves the store as
    it was, a failed SADD leaves the record without index entry.  The
    loop goes on to the next message whatever happened: consuming
    [reader1 ++ reader2] is consuming [reader1], then [reader2]. *)
Theorem consumer_turn_writes value service now serviceJSON :
  unmarshal value = Ok service →
  marshal (set_LastHeartbeat now service) = Ok serviceJSON →
  let key := Name service in
  (∀ w, let w' := (serve (registerService_turn (Message value) now) w).2 in
     (head (faults w) = Some true
      ∧ db w' = db w
      ∧ trace w' = trace w ++
          [Set_ key serviceJSON;
           Printf ("Error registering service: " +:+ Error io_timeout)])
     ∨ (head (faults w) ≠ Some true
        ∧ db w' = <[key := RString serviceJSON]> (db w)
        ∧ ∃ err, trace w' = trace w ++
            [Set_ key serviceJSON; SAdd all_services key;
             Printf ("Error adding service to set: " +:+ Error err)])
     ∨ (head (faults w) ≠ Some true
        ∧ db w' !! key = Some (RString serviceJSON)
        ∧ (∃ s, db w' !! all_services = Some (RSet s) ∧ key ∈ s)
        ∧ trace w' = trace w ++
            [Set_ key serviceJSON; SAdd all_services key;
             Printf ("Service registered: " +:+ key)]))
  ∧ (∀ reader1 reader2 w,
       (serve (registerService (reader1 ++ reader2)) w).2
       = (serve (registerService reader2)
            (serve (registerService reader1) w).2).2).
Proof.
  intros Hdec Henc key. split.
  - intros [d rv fs tr]. unfold serve, registerService_turn. wire.
    all: try (rewrite lookup_insert; by_cases;
              [| destruct (d !! all_services) as [[v|s]|] eqn:Hidx]; wire).
    all: rewrite <- ?app_assoc; cbn.
    all: subst key; first
      [ by left
      | right; left; split_and!; try done;
        first [ by exists WRONGTYPE | by exists io_timeout ]
      | right; right; split_and!; try done;
        [ by rewrite ?lookup_insert_ne by congruence;
             rewrite lookup_insert_eq
        | first [ rewrite lookup_insert_eq
                | rewrite lookup_insert_ne by congruence ];
          eexists; split; [first [eassumption | reflexivity] | set_solver] ] ].
  - intros reader1 reader2 w. unfold serve.
    rewrite registerService_app.
    destruct (run (registerService reader1) ∅ w) as [[[] c1] w1].
    cbn. by destruct (run (registerService reader2) ∅ w1) as [[[] c2] w2].
Qed.



(** *** Two updates racing on one key *)

Lemma unmodified_singleton key r rv :
  unmodified {[key := r]} rv = bool_decide (revision rv key = r).
Proof.
  unfold unmodified. apply bool_decide_ext.
  rewrite map_Forall_singleton. done.
Qed.

Lemma revision_touch key rv :
  revision (touch key rv) key = S (revision rv key).
Proof. unfold revision at 1, touch. by rewrite lookup_insert_eq. Qed.

Section Update_points.

Variables (name : string) (service : Service) (now : Z) (json : V).
Hypothesis valid : validateService service = None.
Hypothesis encoded : marshal (set_LastHeartbeat now service) = Ok json.

Abbreviation point := (at_phase name service now).

Lemma advance_Fresh c w :
  faults w = [] →
  advance (c, point Fresh) w
  = ((<[name := revision (rev w) name]> c, point Watched),
     mkWorld (db w) (rev w) [] (trace w ++ [Watch name])).
Proof.
  destruct w as [d rv fs tr]. cbn. intros ->.
  unfold advance, at_phase, updateService. rewrite valid. reflexivity.
Qed.

Lemma advance_Watched c w :
  faults w = [] → is_Some (db w !! name) →
  advance (c, point Watched) w
  = ((c, point Checked),
     mkWorld (db w) (rev w) [] (trace w ++ [Exists name])).
Proof.
  destruct w as [d rv fs tr]. cbn. intros -> [v Hv].
  unfold advance, at_phase, updateService. rewrite valid. cbn.
  rewrite Hv. reflexivity.
Qed.

Lemma advance_Checked c w :
  faults w = [] →
  advance (c, point Checked) w
  = if unmodified c (rev w) then
      ((∅, point (Decided true)),
       mkWorld (<[name := RString json]> (db w)) (touch name (rev w)) []
         (trace w ++ [TxSet name json]))
    else
      ((∅, point (Decided false)),
       mkWorld (db w) (rev w) [] (trace w ++ [TxSet name json])).
Proof.
  destruct w as [d rv fs tr]. cbn. intros ->.
  unfold advance, at_phase, updateService. rewrite valid. cbn.
  rewrite encoded. destruct (decide (1%Z = 0%Z)); [done |].
  cbn. by destruct (unmodified c rv).
Qed.

Lemma advance_Decided committed c w :
  faults w = [] →
  advance (c, point (Decided committed)) w
  = ((∅, point (Replied committed)),
     mkWorld (db w) (rev w) [] (trace w ++ [Unwatch])).
Proof.
  destruct w as [d rv fs tr]. cbn. intros ->.
  unfold advance, at_phase, updateService. rewrite valid. cbn.
  rewrite encoded. destruct (decide (1%Z = 0%Z)); [done |].
  by destruct committed.
Qed.

Lemma point_Replied committed :
  point (Replied committed)
  = Ret (if committed then
           JSON StatusOK (H_message "Service updated sucessfully.") []
         else
           JSON StatusConflict
             (H_error "Transaction failed, please try again") []).
Proof.
  unfold at_phase, updateService. rewrite valid. cbn.
  rewrite encoded. destruct (decide (1%Z = 0%Z)); [done |].
  by destruct committed.
Qed.

Lemma advance_Replied committed c w :
  advance (c, point (Replied committed)) w
  = ((c, point (Replied committed)), w).
Proof. unfold advance. cbn [snd]. by rewrite point_Replied. Qed.

End Update_points.

Lemma update_thread_advance name service now json t w :
  validateService service = None →
  marshal (set_LastHeartbeat now service) = Ok json →
  faults w = [] → is_Some (db w !! name) →
  update_thread name service now t →
  update_thread name service now (advance t w).1
  ∧ faults (advance t w).2 = []
  ∧ is_Some (db (advance t w).2 !! name).
Proof.
  intros Hvalid Hjson Hf Hdb (ph & Hcode & Hconn).
  destruct t as [c p]. cbn in Hcode, Hconn. subst p.
  destruct ph as [| | | committed | committed].
  - rewrite (advance_Fresh _ _ _ Hvalid) by done. subst c.
    split_and!; [| done..]. exists Watched. split; [done |]. by eexists.
  - rewrite (advance_Watched _ _ _ Hvalid) by done.
    split_and!; [| done..]. by exists Checked.
  - rewrite (advance_Checked _ _ _ _ Hvalid Hjson) by done.
    destruct (unmodified c (rev w)); (split_and!; [| done | ]);
      [by exists (Decided true) | | by exists (Decided false) | done].
    cbn. rewrite lookup_insert_eq. by eexists.
  - rewrite (advance_Decided _ _ _ _ Hvalid Hjson) by done.
    split_and!; [| done..]. by exists (Replied committed).
  - rewrite (advance_Replied _ _ _ _ Hvalid Hjson).
    split_and!; [| done..]. by exists (Replied committed).
Qed.

Section Race_thread.

Variables (name : string) (service : Service) (now : Z) (json : V).
Hypothesis valid : validateService service = None.
Hypothesis encoded : marshal (set_LastHeartbeat now service) = Ok json.

Lemma same_store_trace w tr :
  faults w = [] → same_store w (mkWorld (db w) (rev w) [] tr).
Proof. intros Hf. unfold same_store. cbn. by rewrite Hf. Qed.

Lemma same_store_refl w : same_store w w.
Proof. done. Qed.

Lemma open_advance t w :
  faults w = [] → is_Some (db w !! name) →
  open_ name service now w t →
  (open_ name service now (advance t w).2 (advance t w).1
   ∧ same_store w (advance t w).2)
  ∨ (won name service now (advance t w).1
     ∧ db (advance t w).2 = <[name := RString json]> (db w)
     ∧ rev (advance t w).2 = touch name (rev w)
     ∧ faults (advance t w).2 = []).
Proof.
  intros Hf Hdb [Hc Hp]. destruct t as [c p].
  cbn [fst snd] in Hc, Hp. subst c. destruct Hp as [-> | ->].
  - left. rewrite (advance_Watched _ _ _ valid) by done.
    cbn [fst snd]. split; [| by apply same_store_trace].
    split; [done | by right].
  - right. rewrite (advance_Checked _ _ _ _ valid encoded) by done.
    rewrite unmodified_singleton, bool_decide_eq_true_2 by done.
    cbn [fst snd]. split_and!; try done. split; [done | by left].
Qed.

Lemma won_advance t w :
  faults w = [] →
  won name service now t →
  won name service now (advance t w).1 ∧ same_store w (advance t w).2.
Proof.
  intros Hf [Hc Hp]. destruct t as [c p].
  cbn [fst snd] in Hc, Hp. subst c. destruct Hp as [-> | ->].
  - rewrite (advance_Decided _ _ _ _ valid encoded) by done.
    cbn [fst snd]. split; [| by apply same_store_trace].
    split; [done | by right].
  - rewrite (advance_Replied _ _ _ _ valid encoded).
    cbn [fst snd]. split; [| done]. split; [done | by right].
Qed.

Lemma lost_advance t w :
  faults w = [] → is_Some (db w !! name) →
  lost name service now w t →
  lost name service now (advance t w).2 (advance t w).1
  ∧ same_store w (advance t w).2.
Proof.
  intros Hf Hdb Hlost. destruct t as [c p].
  destruct Hlost as [(r & Hr & Hc & Hp) | [Hc Hp]];
    cbn [fst snd] in Hc, Hp; subst c; destruct Hp as [-> | ->].
  - rewrite (advance_Watched _ _ _ valid) by done.
    cbn [fst snd]. split; [| by apply same_store_trace].
    left. exists r. split_and!; try done. by right.
  - rewrite (advance_Checked _ _ _ _ valid encoded) by done.
    rewrite unmodified_singleton, bool_decide_eq_false_2 by done.
    cbn [fst snd]. split; [| by apply same_store_trace].
    right. split; [done | by left].
  - rewrite (advance_Decided _ _ _ _ valid encoded) by done.
    cbn [fst snd]. split; [| by apply same_store_trace].
    right. split; [done | by right].
  - rewrite (advance_Replied _ _ _ _ valid encoded).
    cbn [fst snd]. split; [| done]. right. split; [done | by right].
Qed.

Lemma open_same_store t w w' :
  same_store w w' → open_ name service now w t →
  open_ name service now w' t.
Proof. intros (_ & Hrev & _). unfold open_. by rewrite Hrev. Qed.

Lemma lost_same_store t w w' :
  same_store w w' → lost name service now w t →
  lost name service now w' t.
Proof. intros (_ & Hrev & _). unfold lost. by rewrite Hrev. Qed.

(** The write of another request makes an open transaction stale. *)
Lemma open_overtaken t w w' :
  rev w' = touch name (rev w) → open_ name service now w t →
  lost name service now w' t.
Proof.
  intros Hrev [Hc Hp]. left. exists (revision (rev w) name).
  rewrite Hrev, revision_touch. split_and!; [lia | done..].
Qed.

(** A request that watches the current revision is at one of the
    two points inside its transaction. *)
Lemma update_thread_watching t w :
  update_thread name service now t → watching name w t →
  open_ name service now w t.
Proof.
  intros (ph & Hp & Hc) Hwatch. unfold watching in Hwatch.
  destruct ph; try (rewrite Hc, lookup_empty in Hwatch; done).
  all: destruct Hc as [r Hc]; rewrite Hc, lookup_singleton_eq in Hwatch;
    injection Hwatch as ->; split; auto.
Qed.

Lemma lost_Replied t w ctx :
  lost name service now w t → response t = Some ctx →
  status ctx = Some StatusConflict.
Proof.
  unfold response.
  intros [(r & _ & _ & [-> | ->]) | [_ [-> | ->]]];
    unfold at_phase, updateService; rewrite valid; cbn; try done;
    rewrite encoded; destruct (decide (1%Z = 0%Z)); try done; cbn.
  by intros [= <-].
Qed.

Lemma won_Replied t ctx :
  won name service now t → response t = Some ctx →
  status ctx = Some StatusOK.
Proof.
  unfold response.
  intros [_ [-> | ->]];
    unfold at_phase, updateService; rewrite valid; cbn; try done;
    rewrite encoded; destruct (decide (1%Z = 0%Z)); try done; cbn.
  by intros [= <-].
Qed.

Lemma open_not_Replied t w :
  open_ name service now w t → response t = None.
Proof.
  unfold response.
  intros [_ [-> | ->]];
    unfold at_phase, updateService; rewrite valid; cbn; try done.
  rewrite encoded. by destruct (decide (1%Z = 0%Z)).
Qed.

End Race_thread.

Section Race.

Variables (name : string) (service1 service2 : Service).
Variables (now1 now2 : Z) (json1 json2 : V).
Hypothesis valid1 : validateService service1 = None.
Hypothesis valid2 : validateService service2 = None.
Hypothesis encoded1 : marshal (set_LastHeartbeat now1 service1) = Ok json1.
Hypothesis encoded2 : marshal (set_LastHeartbeat now2 service2) = Ok json2.

Abbreviation started' := (started name service1 service2 now1 now2).
Abbreviation race' :=
  (race name service1 service2 now1 now2 json1 json2).

Lemma step_started i cfg : started' cfg → started' (step i cfg).
Proof.
  intros (Hf & Hdb & t1 & t2 & Hts & H1 & H2).
  destruct cfg as [ts w]. cbn in *. subst ts. unfold step. cbn [fst snd].
  destruct i as [| [| i]]; simpl.
  3: { split_and!; [done.. |]. by exists t1, t2. }
  - destruct (update_thread_advance name _ _ _ t1 w valid1 encoded1)
      as (? & ? & ?); [done..|].
    destruct (advance t1 w) as [t1' w']. cbn in *.
    split_and!; [done.. |]. by exists t1', t2.
  - destruct (update_thread_advance name _ _ _ t2 w valid2 encoded2)
      as (? & ? & ?); [done..|].
    destruct (advance t2 w) as [t2' w']. cbn in *.
    split_and!; [done.. |]. by exists t1, t2'.
Qed.

Lemma schedule_started sch cfg :
  started' cfg → started' (schedule sch cfg).
Proof.
  revert cfg. induction sch as [| i sch IH]; intros cfg Hcfg; [done |].
  cbn. apply IH. by apply step_started.
Qed.

Lemma step_race i cfg : race' cfg → race' (step i cfg).
Proof.
  intros (Hf & t1 & t2 & Hts & Hrace).
  destruct cfg as [ts w]. cbn [fst snd] in *. subst ts.
  unfold step. cbn [fst snd].
  destruct i as [| [| i]]; simpl.
  3: { split; [done |]. by exists t1, t2. }
  - destruct Hrace as [(Hdb & H1 & H2) | [(Hdb & H1 & H2) | (Hdb & H1 & H2)]].
    + destruct (open_advance name _ _ _ valid1 encoded1 t1 w Hf Hdb H1)
        as [[H1' Hsame] | (H1' & Hdb' & Hrev' & Hf')];
        destruct (advance t1 w) as [t1' w']; cbn [fst snd] in *.
      * unfold race; cbn [fst snd].
        split; [by rewrite (proj2 (proj2 Hsame)) |].
        exists t1', t2. split; [done |]. left.
        split_and!; [by rewrite (proj1 Hsame) | done
                    | by eapply open_same_store].
      * unfold race; cbn [fst snd].
        split; [done |]. exists t1', t2. split; [done |]. right; left.
        split_and!; [by rewrite Hdb', lookup_insert_eq | done
                    | by eapply open_overtaken].
    + destruct (won_advance name _ _ _ valid1 encoded1 t1 w Hf H1)
        as [H1' Hsame].
      destruct (advance t1 w) as [t1' w']; cbn [fst snd] in *.
      unfold race; cbn [fst snd].
      split; [by rewrite (proj2 (proj2 Hsame)) |].
      exists t1', t2. split; [done |]. right; left.
      split_and!; [by rewrite (proj1 Hsame) | done
                  | by eapply lost_same_store].
    + destruct (lost_advance name _ _ _ valid1 encoded1 t1 w Hf) as
        [H1' Hsame]; [by rewrite Hdb | done |].
      destruct (advance t1 w) as [t1' w']; cbn [fst snd] in *.
      unfold race; cbn [fst snd].
      split; [by rewrite (proj2 (proj2 Hsame)) |].
      exists t1', t2. split; [done |]. right; right.
      split_and!; [by rewrite (proj1 Hsame) | done..].
  - destruct Hrace as [(Hdb & H1 & H2) | [(Hdb & H1 & H2) | (Hdb & H1 & H2)]].
    + destruct (open_advance name _ _ _ valid2 encoded2 t2 w Hf Hdb H2)
        as [[H2' Hsame] | (H2' & Hdb' & Hrev' & Hf')];
        destruct (advance t2 w) as [t2' w']; cbn [fst snd] in *.
      * unfold race; cbn [fst snd].
        split; [by rewrite (proj2 (proj2 Hsame)) |].
        exists t1, t2'. split; [done |]. left.
        split_and!; [by rewrite (proj1 Hsame)
                    | by eapply open_same_store | done].
      * unfold race; cbn [fst snd].
        split; [done |]. exists t1, t2'. split; [done |]. right; right.
        split_and!; [by rewrite Hdb', lookup_insert_eq
                    | by eapply open_overtaken | done].
    + destruct (lost_advance name _ _ _ valid2 encoded2 t2 w Hf) as
        [H2' Hsame]; [by rewrite Hdb | done |].
      destruct (advance t2 w) as [t2' w']; cbn [fst snd] in *.
      unfold race; cbn [fst snd].
      split; [by rewrite (proj2 (proj2 Hsame)) |].
      exists t1, t2'. split; [done |]. right; left.
      split_and!; [by rewrite (proj1 Hsame) | done..].
    + destruct (won_advance name _ _ _ valid2 encoded2 t2 w Hf H2)
        as [H2' Hsame].
      destruct (advance t2 w) as [t2' w']; cbn [fst snd] in *.
      unfold race; cbn [fst snd].
      split; [by rewrite (proj2 (proj2 Hsame)) |].
      exists t1, t2'. split; [done |]. right; right.
      split_and!; [by rewrite (proj1 Hsame)
                  | by eapply lost_same_store | done].
Qed.

Lemma schedule_race sch cfg : race' cfg → race' (schedule sch cfg).
Proof.
  revert cfg. induction sch as [| i sch IH]; intros cfg Hcfg; [done |].
  cbn. apply IH. by apply step_race.
Qed.

Lemma started_watching cfg :
  started' cfg → Forall (watching name cfg.2) cfg.1 → race' cfg.
Proof.
  intros (Hf & Hdb & t1 & t2 & Hts & H1 & H2) Hw.
  rewrite Hts in Hw.
  apply Forall_cons in Hw as [Hw1 Hw].
  apply Forall_cons in Hw as [Hw2 _].
  split; [done |]. exists t1, t2. split; [done |]. left.
  split_and!; [done | by apply update_thread_watching..].
Qed.

Lemma race_outcome cfg :
  race' cfg → (∀ t, t ∈ cfg.1 → is_Some (response t)) →
  ∃ t1 t2 ctx1 ctx2,
    cfg.1 = [t1; t2]
    ∧ response t1 = Some ctx1 ∧ response t2 = Some ctx2
    ∧ ((status ctx1 = Some StatusOK ∧ status ctx2 = Some StatusConflict
        ∧ db cfg.2 !! name = Some (RString json1))
       ∨ (status ctx1 = Some StatusConflict ∧ status ctx2 = Some StatusOK
          ∧ db cfg.2 !! name = Some (RString json2))).
Proof.
  intros (Hf & t1 & t2 & Hts & Hrace) Hdone.
  destruct (Hdone t1) as [ctx1 Hctx1]; [rewrite Hts; by left |].
  destruct (Hdone t2) as [ctx2 Hctx2]; [rewrite Hts; by right; left |].
  exists t1, t2, ctx1, ctx2. split_and!; [done.. |].
  destruct Hrace as [(_ & H1 & _) | [(Hdb & H1 & H2) | (Hdb & H1 & H2)]].
  - by rewrite (open_not_Replied _ _ _ _ valid1 encoded1 _ _ H1) in Hctx1.
  - left. split_and!; [| | done].
    + by eapply (won_Replied _ _ _ _ valid1 encoded1).
    + by eapply (lost_Replied _ _ _ _ valid2 encoded2).
  - right. split_and!; [| | done].
    + by eapply (lost_Replied _ _ _ _ valid1 encoded1).
    + by eapply (won_Replied _ _ _ _ valid2 encoded2).
Qed.

End Race.

(** C1.  Two valid updates of an existing key race: after the
    commands of [pre], both requests watch the key at its current
    revision (each has sent WATCH, none has sent EXEC, nobody wrote the
    key in between).  However the remaining commands are interleaved,
    once both requests have replied one of them answers 200 and the
    other 409, and the key holds the encoded record of the one that
    answered 200, its payload with the fresh heartbeat, and nothing of
    the other payload. *)
Theorem update_race name service1 service2 now1 now2 json1 json2
    w pre post :
  validateService service1 = None →
  validateService service2 = None →
  marshal (set_LastHeartbeat now1 service1) = Ok json1 →
  marshal (set_LastHeartbeat now2 service2) = Ok json2 →
  is_Some (db w !! name) →
  faults w = [] →
  let start := ([(∅, updateService name (Ok service1) now1);
                 (∅, updateService name (Ok service2) now2)], w) in
  let mid := schedule pre start in
  let final := schedule post mid in
  Forall (watching name mid.2) mid.1 →
  (∀ t, t ∈ final.1 → is_Some (response t)) →
  ∃ t1 t2 ctx1 ctx2,
    final.1 = [t1; t2]
    ∧ response t1 = Some ctx1 ∧ response t2 = Some ctx2
    ∧ ((status ctx1 = Some StatusOK ∧ status ctx2 = Some StatusConflict
        ∧ db final.2 !! name = Some (RString json1))
       ∨ (status ctx1 = Some StatusConflict ∧ status ctx2 = Some StatusOK
          ∧ db final.2 !! name = Some (RString json2))).
Proof.
  intros Hv1 Hv2 Hj1 Hj2 Hdb Hf start mid final Hwatch Hdone.
  apply (race_outcome name service1 service2 now1 now2 json1 json2);
    [done.. | | done].
  apply schedule_race; [done.. |].
  apply started_watching; [done.. | | done].
  apply (schedule_started name service1 service2 now1 now2 json1 json2);
    [done.. |].
  split_and!; [done.. |]. do 2 eexists. split; [reflexivity |].
  split; by exists Fresh.
Qed.

(** *** Reads *)

(** A store that loses no command goes on losing none. *)
Lemma exec_reliable o c w : faults w = [] → faults (exec o c w).2 = [].
Proof.
  intros Hf. unfold exec. rewrite Hf.
  destruct (is_Printf o), (apply o c (db w) (rev w)) as [[[r c'] d'] rv'];
    done.
Qed.

Lemma run_reliable {A} (p : prog A) c w :
  faults w = [] → faults (run p c w).2 = [].
Proof.
  revert c w. induction p as [a | o k IH]; intros c w Hf; [done |].
  cbn [run]. pose proof (exec_reliable o c w Hf) as Hf'.
  destruct (exec o c w) as [[r c'] w']. by apply IH.
Qed.

Lemma serve_reliable {A} (p : prog A) w :
  faults w = [] → faults (serve p w).2 = [].
Proof.
  intros Hf. unfold serve. pose proof (run_reliable p ∅ w Hf) as Hf'.
  by destruct (run p ∅ w) as [[a c'] w'].
Qed.

Lemma getService_behaviour name w :
  db (serve (getService name) w).2 = db w
  ∧ rev (serve (getService name) w).2 = rev w
  ∧ (head (faults w) ≠ Some true →
     (serve (getService name) w).1
     = match db w !! name with
       | None => JSON StatusNotFound (H_error "Service not found") []
       | Some (RSet _) =>
           JSON StatusInternalServerError (H_error "Failed to get service") []
       | Some (RString serviceJSON) =>
           match unmarshal serviceJSON with
           | Ok service => JSON StatusOK (J_service service) []
           | Err _ =>
               JSON StatusInternalServerError
                 (H_error "Failed to unmarshal service") []
           end
       end).
Proof.
  destruct w as [d rv fs tr]. unfold serve, getService.
  split_and!; [by wire_cases.. |].
  cbn [faults]. intros Hf.
  destruct (d !! name) as [[v | s] |] eqn:Hname; wire; try done.
  all: by destruct (unmarshal v).
Qed.

(** X6.  get never writes: database and revisions are what they were,
    whatever commands are lost.  When its GET reaches the server it
    answers 404 for a missing key, 200 with the decoded record for a
    string that decodes, and 500 for a string that does not decode or
    for a key that holds a set. *)
Theorem getService_reads_only name w :
  db (serve (getService name) w).2 = db w
  ∧ rev (serve (getService name) w).2 = rev w
  ∧ (head (faults w) ≠ Some true →
     (serve (getService name) w).1
     = match db w !! name with
       | None => JSON StatusNotFound (H_error "Service not found") []
       | Some (RSet _) =>
           JSON StatusInternalServerError (H_error "Failed to get service") []
       | Some (RString serviceJSON) =>
           match unmarshal serviceJSON with
           | Ok service => JSON StatusOK (J_service service) []
           | Err _ =>
               JSON StatusInternalServerError
                 (H_error "Failed to unmarshal service") []
           end
       end).
Proof. apply getService_behaviour. Qed.

Lemma collect_cons d name serviceNames services :
  collect d (name :: serviceNames) services
  = collect d serviceNames
      match record_at d name with
      | Some service => <[name := service]> services
      | None => services
      end.
Proof. reflexivity. Qed.

Lemma collect_lookup d serviceNames :
  ∀ services name,
    collect d serviceNames services !! name
    = if decide (name ∈ serviceNames) then
        match record_at d name with
        | Some service => Some service
        | None => services !! name
        end
      else services !! name.
Proof.
  induction serviceNames as [| n serviceNames IH]; intros services name.
  - cbn. by destruct (decide (name ∈ [])) as [?%elem_of_nil |].
  - rewrite collect_cons, IH.
    destruct (decide (name = n)) as [-> | Hne].
    + rewrite (decide_True (P := n ∈ n :: serviceNames)) by by left.
      destruct (record_at d n) as [service |] eqn:Hrec.
      * rewrite lookup_insert_eq. by destruct (decide (n ∈ serviceNames)).
      * by destruct (decide (n ∈ serviceNames)).
    + assert (name ∈ n :: serviceNames ↔ name ∈ serviceNames) as Hin.
      { rewrite elem_of_cons. naive_solver. }
      assert (match record_at d n with
              | Some service => <[n := service]> services
              | None => services
              end !! name = services !! name) as ->.
      { destruct (record_at d n); [by rewrite lookup_insert_ne | done]. }
      destruct (decide (name ∈ serviceNames)) as [Hy | Hn].
      * by rewrite decide_True by by apply Hin.
      * by rewrite decide_False by by rewrite Hin.
Qed.

Lemma listServices_range_reliable serviceNames :
  ∀ services c w,
    faults w = [] →
    (run (listServices_range serviceNames services) c w).1.1
    = collect (db w) serviceNames services.
Proof.
  induction serviceNames as [| n serviceNames IH]; intros services c w Hf.
  - reflexivity.
  - destruct w as [d rv fs tr]. cbn in Hf. subst fs.
    rewrite collect_cons. unfold record_at at 1.
    destruct (d !! n) as [[v | s] |] eqn:Hn; wire;
      try destruct (unmarshal v) eqn:Hv; wire;
      by rewrite IH.
Qed.

Lemma listServices_range_reads_only serviceNames :
  ∀ services c w,
    db (run (listServices_range serviceNames services) c w).2 = db w
    ∧ rev (run (listServices_range serviceNames services) c w).2 = rev w.
Proof.
  induction serviceNames as [| n serviceNames IH]; intros services c w.
  - done.
  - destruct w as [d rv fs tr].
    assert (∀ services' c' fs' tr',
      db (run (listServices_range serviceNames services') c'
            (mkWorld d rv fs' tr')).2 = d
      ∧ rev (run (listServices_range serviceNames services') c'
               (mkWorld d rv fs' tr')).2 = rv) as Hrest.
    { intros services' c' fs' tr'.
      apply (IH services' c' (mkWorld d rv fs' tr')). }
    wire_cases; apply Hrest.
Qed.

Lemma listServices_behaviour w :
  db (serve listServices w).2 = db w
  ∧ rev (serve listServices w).2 = rev w
  ∧ (faults w = [] →
     match index_of (db w) with
     | None =>
         (serve listServices w).1
         = JSON StatusInternalServerError
             (H_error "Failed to list services") []
     | Some idx =>
         ∃ services,
           (serve listServices w).1 = JSON StatusOK (J_services services) []
           ∧ ∀ name, services !! name
                     = if decide (name ∈ idx) then record_at (db w) name
                       else None
     end).
Proof.
  destruct w as [d rv fs tr]. unfold serve, listServices.
  cbn [mbind prog_bind call bind run].
  destruct (exec (SMembers all_services) ∅ (mkWorld d rv fs tr))
    as [[r c'] w'] eqn:Hexec.
  assert (db w' = d ∧ rev w' = rv
          ∧ (fs = [] →
             faults w' = []
             ∧ r = match index_of d with
                   | None => Err WRONGTYPE
                   | Some idx => Ok (elements idx)
                   end)) as (Hdb & Hrev & Hr).
  { revert Hexec. unfold exec, index_of. cbn.
    destruct fs as [| [] fs]; cbn;
      destruct (d !! all_services) as [[v | s] |]; cbn;
      intros ?; simplify_eq; split_and!; done. }
  assert (db (let '(a, _, w'0) :=
                run match r with
                    | Ok serviceNames =>
                        bind (listServices_range serviceNames ∅)
                          (λ services,
                             Ret (JSON StatusOK (J_services services) []))
                    | Err _ =>
                        Ret (JSON StatusInternalServerError
                               (H_error "Failed to list services") [])
                    end c' w' in (a, w'0)).2 = d
          ∧ rev (let '(a, _, w'0) :=
                   run match r with
                       | Ok serviceNames =>
                           bind (listServices_range serviceNames ∅)
                             (λ services,
                                Ret (JSON StatusOK (J_services services) []))
                       | Err _ =>
                           Ret (JSON StatusInternalServerError
                                  (H_error "Failed to list services") [])
                       end c' w' in (a, w'0)).2 = rv) as [Hdb' Hrev'].
  { destruct r as [names | err]; [| done]. rewrite run_bind.
    pose proof (listServices_range_reads_only names ∅ c' w') as [H1 H2].
    destruct (run (listServices_range names ∅) c' w') as [[m c''] w''].
    cbn in *. by rewrite H1, H2. }
  split_and!; [exact Hdb' | exact Hrev' |].
  cbn [faults db]. intros ->. destruct Hr as [Hf ->]; [done |].
  destruct (index_of d) as [idx |]; [| done].
  unfold mbind, prog_bind. rewrite run_bind.
  pose proof (listServices_range_reliable (elements idx) ∅ c' w' Hf) as Hm.
  destruct (run (listServices_range (elements idx) ∅) c' w')
    as [[m c''] w''].
  cbn in Hm. cbn. exists m. split; [done |].
  intros name. rewrite Hm, collect_lookup, Hdb, lookup_empty.
  destruct (decide (name ∈ idx)) as [Hin | Hout].
  - rewrite decide_True by by apply elem_of_elements.
    by destruct (record_at d name).
  - by rewrite decide_False by by rewrite elem_of_elements.
Qed.

(** X7.  list never writes, whatever commands are lost.  When every
    command reaches the server it answers 500 if the index key holds a
    string, and otherwise 200 with a map that has, for each member of
    the index set whose record reads and decodes, that record under the
    member's name, and nothing else: members without a readable record
    are skipped. *)
Theorem listServices_exact w :
  db (serve listServices w).2 = db w
  ∧ rev (serve listServices w).2 = rev w
  ∧ (faults w = [] →
     match index_of (db w) with
     | None =>
         (serve listServices w).1
         = JSON StatusInternalServerError
             (H_error "Failed to list services") []
     | Some idx =>
         ∃ services,
           (serve listServices w).1 = JSON StatusOK (J_services services) []
           ∧ ∀ name, services !! name
                     = if decide (name ∈ idx) then record_at (db w) name
                       else None
     end).
Proof. apply listServices_behaviour. Qed.

(** X8.  What list shows, get answers: when no command is lost, each
    entry of the map list answers with is the record get answers, with
    200, for that name. *)
Theorem listed_then_get w services name service :
  faults w = [] →
  (serve listServices w).1 = JSON StatusOK (J_services services) [] →
  services !! name = Some service →
  (serve (getService name) (serve listServices w).2).1
  = JSON StatusOK (J_service service) [].
Proof.
  intros Hf Hlist Hname.
  destruct (listServices_behaviour w) as (Hdb & _ & Hexact).
  specialize (Hexact Hf).
  destruct (index_of (db w)) as [idx |];
    [| rewrite Hexact in Hlist; discriminate Hlist].
  destruct Hexact as (services' & Hlist' & Hlookup).
  rewrite Hlist' in Hlist. injection Hlist as ->.
  rewrite Hlookup in Hname.
  destruct (decide (name ∈ idx)); [| done].
  destruct (getService_behaviour name (serve listServices w).2)
    as (_ & _ & Hget).
  rewrite Hget by by rewrite serve_reliable.
  rewrite Hdb. unfold record_at in Hname.
  destruct (db w !! name) as [[v | s] |]; [| done..].
  by destruct (unmarshal v); simplify_eq.
Qed.

(** *** The consumer *)

(** X9.  A read that fails, a payload that does not decode and a record
    that does not encode cost one log line each: the turn sends no
    command to the store and leaves database, revisions and pending
    faults as they were. *)
Theorem consumer_drops_unusable msg now w :
  match msg with
  | ReadError _ => True
  | Message value =>
      match unmarshal value with
      | Err _ => True
      | Ok service =>
          ∃ err, marshal (set_LastHeartbeat now service) = Err err
      end
  end →
  let w' := (serve (registerService_turn msg now) w).2 in
  db w' = db w ∧ rev w' = rev w ∧ faults w' = faults w
  ∧ ∃ line, trace w' = trace w ++ [Printf line].
Proof.
  intros Hmsg. destruct w as [d rv fs tr].
  unfold serve, registerService_turn.
  destruct msg as [err | value].
  - cbn. split_and!; try done. by destruct fs; eauto.
  - destruct (unmarshal value) as [service | err].
    + destruct Hmsg as [err ->]. cbn. split_and!; try done.
      by destruct fs; eauto.
    + cbn. split_and!; try done. by destruct fs; eauto.
Qed.

Lemma registerService_turn_reliable value service now serviceJSON w :
  unmarshal value = Ok service →
  marshal (set_LastHeartbeat now service) = Ok serviceJSON →
  faults w = [] →
  db (serve (registerService_turn (Message value) now) w).2
  = registered_in (db w) (Name service) serviceJSON.
Proof.
  intros Hdec Henc Hf. destruct w as [d rv fs tr]. cbn in Hf. subst fs.
  unfold serve, registerService_turn, registered_in. wire.
  destruct (<[Name service := RString serviceJSON]> d !! all_services)
    as [[v | s] |]; wire; done.
Qed.

Lemma registered_in_again d name json1 json2 :
  registered_in (registered_in d name json1) name json2
  = registered_in d name json2.
Proof.
  unfold registered_in.
  destruct (decide (name = all_services)) as [-> | Hne].
  { rewrite !lookup_insert_eq. cbn. by rewrite insert_insert_eq. }
  assert (∀ (m : gmap string rvalue) v,
            <[name := v]> m !! all_services = m !! all_services) as Hskip.
  { intros m v. by rewrite lookup_insert_ne. }
  assert (∀ (m : gmap string rvalue) x,
            <[name := RString json2]>
              (<[all_services := x]> (<[name := RString json1]> m))
            = <[all_services := x]> (<[name := RString json2]> m)) as Hswap.
  { intros m x. apply map_eq. intros k. rewrite !lookup_insert.
    repeat by_cases; congruence. }
  rewrite !Hskip.
  destruct (d !! all_services) as [[v | s] |] eqn:Hidx.
  - rewrite ?Hskip, ?Hidx. by rewrite insert_insert_eq.
  - destruct (decide (name ∈ s)) as [Hin | Hout].
    + rewrite ?Hskip, ?Hidx, decide_True by done.
      by rewrite insert_insert_eq.
    + rewrite ?Hskip, lookup_insert_eq, decide_True by set_solver.
      apply Hswap.
  - rewrite ?Hskip, lookup_insert_eq, decide_True by set_solver.
    apply Hswap.
Qed.

Lemma registerService_turn_unencodable value service now err w :
  unmarshal value = Ok service →
  marshal (set_LastHeartbeat now service) = Err err →
  db (serve (registerService_turn (Message value) now) w).2 = db w.
Proof.
  intros Hdec Henc. destruct w as [d rv fs tr].
  unfold serve, registerService_turn. by wire.
Qed.

Lemma serve_registerService_app reader1 reader2 w :
  (serve (registerService (reader1 ++ reader2)) w).2
  = (serve (registerService reader2)
       (serve (registerService reader1) w).2).2.
Proof.
  unfold serve. rewrite registerService_app.
  destruct (run (registerService reader1) ∅ w) as [[[] c1] w1].
  cbn. by destruct (run (registerService reader2) ∅ w1) as [[[] c2] w2].
Qed.

Lemma serve_registerService_one msg now w :
  (serve (registerService [(msg, now)]) w).2
  = (serve (registerService_turn msg now) w).2.
Proof.
  unfold serve. cbn [registerService].
  unfold mbind, prog_bind. rewrite run_bind.
  by destruct (run (registerService_turn msg now) ∅ w) as [[[] c'] w'].
Qed.

(** X10.  Delivering a registration twice is delivering it once: when
    no command is lost, the database after two turns on the same
    message is the database after the second turn alone, the record
    carrying the second heartbeat. *)
Theorem consumer_redelivery value service now1 now2 serviceJSON w :
  unmarshal value = Ok service →
  marshal (set_LastHeartbeat now2 service) = Ok serviceJSON →
  faults w = [] →
  db (serve (registerService [(Message value, now1); (Message value, now2)])
        w).2
  = db (serve (registerService [(Message value, now2)]) w).2.
Proof.
  intros Hdec Henc Hf.
  change [(Message value, now1); (Message value, now2)]
    with ([(Message value, now1)] ++ [(Message value, now2)]).
  rewrite serve_registerService_app, !serve_registerService_one.
  rewrite (registerService_turn_reliable _ _ _ _ _ Hdec Henc)
    by by apply serve_reliable.
  rewrite (registerService_turn_reliable _ _ _ _ _ Hdec Henc) by done.
  destruct (marshal (set_LastHeartbeat now1 service)) as [json1 | err]
    eqn:Henc1.
  - rewrite (registerService_turn_reliable _ _ _ _ _ Hdec Henc1) by done.
    apply registered_in_again.
  - by rewrite (registerService_turn_unencodable _ _ _ _ _ Hdec Henc1).
Qed.

(** *** Delete *)

Lemma deleteService_reliable name w :
  is_Some (db w !! name) → faults w = [] →
  db (serve (deleteService name) w).2 = unregistered_from (db w) name
  ∧ (status (serve (deleteService name) w).1 = Some StatusOK
     ↔ ∀ v, delete name (db w) !! all_services ≠ Some (RString v)).
Proof.
  intros [x Hx] Hf. destruct w as [d rv fs tr]. cbn in Hx, Hf. subst fs.
  unfold serve, deleteService, unregistered_from. wire.
  destruct (delete name d !! all_services) as [[v | s] |]; wire.
  all: split; [done |]; split; [done |].
  all: first [by intros _ | intros Hv; by destruct (Hv v)].
Qed.

Lemma unregistered_from_registered_in d name serviceJSON :
  d !! name = None →
  name ≠ all_services →
  (d !! all_services = None
   ∨ ∃ s, d !! all_services = Some (RSet s) ∧ (name ∉ s) ∧ s ≠ ∅) →
  unregistered_from (registered_in d name serviceJSON) name = d.
Proof.
  intros Hname Hne Hidx. unfold registered_in, unregistered_from.
  rewrite (lookup_insert_ne d name all_services) by done.
  destruct Hidx as [Hidx | (s & Hidx & Hout & Hs)]; rewrite Hidx.
  - rewrite lookup_delete_ne, lookup_insert_eq by done.
    rewrite decide_True by set_solver.
    rewrite decide_True by set_solver.
    apply map_eq. intros k. rewrite !lookup_delete, !lookup_insert.
    repeat by_cases; congruence.
  - rewrite decide_False by done.
    rewrite lookup_delete_ne, lookup_insert_eq by done.
    rewrite decide_True by set_solver.
    assert (({[name]} ∪ s) ∖ {[name]} = s) as -> by set_solver.
    rewrite decide_False by done.
    apply map_eq. intros k. rewrite !lookup_insert, !lookup_delete.
    rewrite !lookup_insert.
    repeat by_cases; congruence.
Qed.

(** X11.  Delete undoes a registration: for a name that was neither
    stored nor listed (and is not the index key), a registration
    followed by a delete of the name answers 200 and leaves the
    database exactly as it was before the registration, the index set
    being absent again if the registration had created it. *)
Theorem register_then_delete value service now serviceJSON w :
  unmarshal value = Ok service →
  marshal (set_LastHeartbeat now service) = Ok serviceJSON →
  faults w = [] →
  db w !! Name service = None →
  Name service ≠ all_services →
  (db w !! all_services = None
   ∨ ∃ s, db w !! all_services = Some (RSet s)
          ∧ (Name service ∉ s) ∧ s ≠ ∅) →
  let w1 := (serve (registerService_turn (Message value) now) w).2 in
  status (serve (deleteService (Name service)) w1).1 = Some StatusOK
  ∧ db (serve (deleteService (Name service)) w1).2 = db w.
Proof.
  intros Hdec Henc Hf Hname Hne Hidx w1.
  assert (db w1 = registered_in (db w) (Name service) serviceJSON) as Hw1.
  { by apply registerService_turn_reliable. }
  assert (faults w1 = []) as Hf1 by by apply serve_reliable.
  assert (db w1 !! Name service = Some (RString serviceJSON)) as Hrec.
  { rewrite Hw1. unfold registered_in.
    rewrite (lookup_insert_ne (db w) (Name service) all_services) by done.
    destruct Hidx as [-> | (s & -> & Hout & _)].
    - by rewrite lookup_insert_ne, lookup_insert_eq.
    - rewrite decide_False by done.
      by rewrite lookup_insert_ne, lookup_insert_eq. }
  destruct (deleteService_reliable (Name service) w1) as [Hdb Hst];
    [by eexists | done |].
  split.
  - apply Hst. intros v Hv. apply lookup_delete_Some in Hv as [_ Hv].
    rewrite Hw1 in Hv. unfold registered_in in Hv.
    rewrite (lookup_insert_ne (db w) (Name service) all_services) in Hv
      by done.
    destruct Hidx as [Hidx | (s & Hidx & Hout & _)]; rewrite Hidx in Hv.
    + by rewrite lookup_insert_eq in Hv.
    + rewrite decide_False in Hv by done.
      by rewrite lookup_insert_eq in Hv.
  - rewrite Hdb, Hw1. by apply unregistered_from_registered_in.
Qed.

(** X12.  A delete of a key that is not in the store sends EXISTS and
    nothing else, answers 404 and leaves the store as it was.  Whatever
    happens, a delete changes no key other than the name and the index
    key. *)
Theorem deleteService_absent_and_frame name w :
  (db w !! name = None → faults w = [] →
   serve (deleteService name) w
   = (JSON StatusNotFound (H_error "Service not found") [],
      mkWorld (db w) (rev w) [] (trace w ++ [Exists name])))
  ∧ (∀ other, other ≠ name → other ≠ all_services →
       db (serve (deleteService name) w).2 !! other = db w !! other).
Proof.
  destruct w as [d rv fs tr]. split.
  - cbn [db faults rev trace]. intros Hname ->.
    unfold serve, deleteService. by wire.
  - unfold serve, deleteService. wire_cases; try done.
    all: intros other Hname Hidx.
    all: by rewrite ?lookup_insert_ne, ?lookup_delete_ne by done.
Qed.

(** *** Transactions *)


(** *** The index key *)

(** X14.  The index set shares the keyspace with the records: a
    registration named like the index key, and an update sent to that
    key, put the encoded record where the index set was.  The SADD of
    the registration then fails on the type, and so does every list
    until the key is deleted: it answers 500. *)
Theorem index_key_taken now w :
  faults w = [] →
  (∀ value service serviceJSON,
      unmarshal value = Ok service →
      marshal (set_LastHeartbeat now service) = Ok serviceJSON →
      Name service = all_services →
      let w1 := (serve (registerService_turn (Message value) now) w).2 in
      db w1 = <[all_services := RString serviceJSON]> (db w)
      ∧ trace w1 = trace w ++
          [Set_ all_services serviceJSON; SAdd all_services all_services;
           Printf ("Error adding service to set: " +:+ Error WRONGTYPE)]
      ∧ status (serve listServices w1).1 = Some StatusInternalServerError)
  ∧ (∀ service serviceJSON,
      validateService service = None →
      marshal (set_LastHeartbeat now service) = Ok serviceJSON →
      is_Some (db w !! all_services) →
      let w1 := (serve (updateService all_services (Ok service) now) w).2 in
      status (serve (updateService all_services (Ok service) now) w).1
      = Some StatusOK
      ∧ db w1 = <[all_services := RString serviceJSON]> (db w)
      ∧ status (serve listServices w1).1 = Some StatusInternalServerError).
Proof.
  intros Hf.
  assert (∀ w1 v, faults w1 = [] → db w1 !! all_services = Some (RString v) →
            status (serve listServices w1).1
            = Some StatusInternalServerError) as Hlist.
  { intros w1 v Hf1 Hv. destruct (listServices_behaviour w1) as (_ & _ & Hex).
    specialize (Hex Hf1). unfold index_of in Hex. rewrite Hv in Hex.
    by rewrite Hex. }
  destruct w as [d rv fs tr]. cbn in Hf. subst fs. split.
  - intros value service serviceJSON Hdec Henc Hname w1.
    assert (w1 = mkWorld (<[all_services := RString serviceJSON]> d)
                   (touch all_services rv) []
                   (tr ++ [Set_ all_services serviceJSON;
                           SAdd all_services all_services;
                           Printf ("Error adding service to set: "
                                   +:+ Error WRONGTYPE)])) as ->.
    { subst w1. unfold serve, registerService_turn. wire.
      rewrite Hname. rewrite lookup_insert_eq. wire.
      by rewrite <- !app_assoc. }
    split_and!; [done.. |].
    eapply Hlist; [done |]. cbn. apply lookup_insert_eq.
  - intros service serviceJSON Hvalid Henc [x Hx] w1.
    assert (serve (updateService all_services (Ok service) now)
              (mkWorld d rv [] tr)
            = (JSON StatusOK (H_message "Service updated sucessfully.") [],
               mkWorld (<[all_services := RString serviceJSON]> d)
                 (touch all_services rv) []
                 (tr ++ [Watch all_services; Exists all_services;
                         TxSet all_services serviceJSON; Unwatch]))) as Hupd.
    { unfold serve, updateService. rewrite Hvalid. wire.
      by rewrite <- !app_assoc. }
    subst w1. rewrite Hupd. split_and!; [done.. |].
    eapply Hlist; [done |]. cbn. apply lookup_insert_eq.
Qed.

(** *** What is sent *)

(** Commands once sent stay in the trace. *)
Lemma exec_trace o c w : trace (exec o c w).2 = trace w ++ [o].
Proof.
  unfold exec.
  destruct (is_Printf o), (faults w) as [| [] fs],
    (apply o c (db w) (rev w)) as [[[r c'] d'] rv']; done.
Qed.

Lemma run_trace {A} (p : prog A) c w :
  ∃ sent, trace (run p c w).2 = trace w ++ sent.
Proof.
  revert c w. induction p as [a | o k IH]; intros c w.
  - exists []. cbn. by rewrite app_nil_r.
  - cbn [run]. pose proof (exec_trace o c w) as Ho.
    destruct (exec o c w) as [[r c'] w']. cbn [snd] in Ho.
    destruct (IH r c' w') as [sent Hsent].
    exists (o :: sent). rewrite Hsent, Ho. by rewrite <- app_assoc.
Qed.

Lemma serve_trace {A} (p : prog A) w :
  ∃ sent, trace (serve p w).2 = trace w ++ sent.
Proof.
  unfold serve. destruct (run_trace p ∅ w) as [sent Hsent].
  exists sent. by destruct (run p ∅ w) as [[a c'] w'].
Qed.

Lemma registerService_turn_sends_Set value service now serviceJSON w :
  unmarshal value = Ok service →
  marshal (set_LastHeartbeat now service) = Ok serviceJSON →
  ∃ sent, trace (serve (registerService_turn (Message value) now) w).2
          = trace w ++ Set_ (Name service) serviceJSON :: sent.
Proof.
  intros Hdec Henc. destruct w as [d rv fs tr].
  unfold serve, registerService_turn. wire.
  all: try (rewrite lookup_insert; by_cases;
            [| destruct (d !! all_services) as [[v | s] |]]; wire).
  all: rewrite <- ?app_assoc; cbn; by eexists.
Qed.

(** X19.  No message is passed over: whatever the reader delivers
    before and after it and whatever commands are lost, the SET of each
    message that decodes to a record is sent. *)
Theorem consumer_attempts_every_message reader1 reader2 value service now
    serviceJSON w :
  unmarshal value = Ok service →
  marshal (set_LastHeartbeat now service) = Ok serviceJSON →
  Set_ (Name service) serviceJSON
  ∈ trace (serve (registerService
                    (reader1 ++ (Message value, now) :: reader2)) w).2.
Proof.
  intros Hdec Henc.
  change ((Message value, now) :: reader2)
    with ([(Message value, now)] ++ reader2).
  rewrite !serve_registerService_app, serve_registerService_one.
  set (w1 := (serve (registerService reader1) w).2).
  destruct (registerService_turn_sends_Set value service now serviceJSON w1
              Hdec Henc) as [sent Hsent].
  destruct (serve_trace (registerService reader2)
              (serve (registerService_turn (Message value) now) w1).2)
    as [sent' Hsent'].
  rewrite Hsent', Hsent. rewrite !elem_of_app.
  left. right. by left.
Qed.

(** X20.  An update with a valid payload that encodes, on a store that
    loses no command: it answers 200 when the key exists and 404 when
    it does not, and sends WATCH, EXISTS, the transaction if the key
    exists, and UNWATCH in both cases. *)
Theorem updateService_reliable name service now serviceJSON w :
  validateService service = None →
  marshal (set_LastHeartbeat now service) = Ok serviceJSON →
  faults w = [] →
  let ctx := (serve (updateService name (Ok service) now) w).1 in
  let w' := (serve (updateService name (Ok service) now) w).2 in
  if db w !! name is Some _ then
    ctx = JSON StatusOK (H_message "Service updated sucessfully.") []
    ∧ db w' = <[name := RString serviceJSON]> (db w)
    ∧ trace w' = trace w ++ [Watch name; Exists name;
                             TxSet name serviceJSON; Unwatch]
  else
    ctx = JSON StatusNotFound (H_error "Service not found") []
    ∧ db w' = db w
    ∧ trace w' = trace w ++ [Watch name; Exists name; Unwatch].
Proof.
  intros Hvalid Henc Hf. destruct w as [d rv fs tr]. cbn in Hf. subst fs.
  unfold serve, updateService. rewrite Hvalid.
  cbn [db trace].
  destruct (d !! name) as [x |] eqn:Hname; wire;
    by rewrite <- !app_assoc.
Qed.
(** What is asked of the codec: decoding an encoded record gives the
    record back. *)
Hypothesis unmarshal_marshal :
  ∀ service serviceJSON,
    marshal service = Ok serviceJSON → unmarshal serviceJSON = Ok service.

(** C8.  A heartbeat that answers 200 replaces the record under the
    key, and under no other key, by the record it read with only
    [LastHeartbeat] set to the clock reading: name and address of the
    stored record are what they were.  On the Redis server the record
    goes through the codec, read from the old value and written to the
    new one. *)
Theorem heartbeat_keeps_name_and_address name now :
  (∀ services,
      status (Mem.healthCheck name now services).2 = Some StatusOK →
      ∃ service updated,
        services !! name = Some service
        ∧ (Mem.healthCheck name now services).1
          = <[name := updated]> services
        ∧ Name updated = Name service
        ∧ Address updated = Address service
        ∧ LastHeartbeat updated = now)
  ∧ (∀ w,
      status (serve (healthCheck name now) w).1 = Some StatusOK →
      ∃ serviceJSON service updatedServiceJSON updated,
        db w !! name = Some (RString serviceJSON)
        ∧ unmarshal serviceJSON = Ok service
        ∧ db (serve (healthCheck name now) w).2
          = <[name := RString updatedServiceJSON]> (db w)
        ∧ unmarshal updatedServiceJSON = Ok updated
        ∧ Name updated = Name service
        ∧ Address updated = Address service
        ∧ LastHeartbeat updated = now).
Proof.
  split.
  - intros services. unfold Mem.healthCheck.
    destruct (services !! name) as [service |]; cbn; [| done].
    intros _. by exists service, (set_LastHeartbeat now service).
  - intros [d rv fs tr]. unfold serve, healthCheck.
    wire_cases; try done.
    all: intros _; do 4 eexists; split_and!; eauto.
Qed.

(** *** Round trips through the store *)

Lemma registered_in_lookup d name serviceJSON :
  registered_in d name serviceJSON !! name = Some (RString serviceJSON).
Proof.
  unfold registered_in.
  destruct (decide (name = all_services)) as [-> | Hne].
  - by rewrite !lookup_insert_eq.
  - rewrite (lookup_insert_ne d name all_services) by done.
    destruct (d !! all_services) as [[v | s] |];
      [| destruct (decide (name ∈ s)) |];
      by rewrite ?(lookup_insert_ne _ all_services name), lookup_insert_eq.
Qed.

Lemma registered_in_index d name serviceJSON :
  name ≠ all_services →
  (∀ v, d !! all_services ≠ Some (RString v)) →
  ∃ idx, index_of (registered_in d name serviceJSON) = Some idx ∧ name ∈ idx.
Proof.
  intros Hne Hidx. unfold registered_in, index_of.
  rewrite (lookup_insert_ne d name all_services) by done.
  destruct (d !! all_services) as [[v | s] |] eqn:Hs.
  - by destruct (Hidx v).
  - destruct (decide (name ∈ s)).
    + rewrite lookup_insert_ne, Hs by done. by exists s.
    + rewrite lookup_insert_eq. eexists. split; [done | set_solver].
  - rewrite lookup_insert_eq. eexists. split; [done | set_solver].
Qed.

(** X15.  What the consumer registers, get answers: after the turn of a
    message that decodes to a record, with no command lost, a get of
    the record's name answers 200 with the record and the heartbeat of
    the turn; list shows it too, unless the name is the index key or
    the index key holds a string. *)
Theorem register_then_get value service now serviceJSON w :
  unmarshal value = Ok service →
  marshal (set_LastHeartbeat now service) = Ok serviceJSON →
  faults w = [] →
  let w1 := (serve (registerService_turn (Message value) now) w).2 in
  (serve (getService (Name service)) w1).1
  = JSON StatusOK (J_service (set_LastHeartbeat now service)) []
  ∧ (Name service ≠ all_services →
     (∀ v, db w !! all_services ≠ Some (RString v)) →
     ∃ services,
       (serve listServices w1).1 = JSON StatusOK (J_services services) []
       ∧ services !! Name service = Some (set_LastHeartbeat now service)).
Proof.
  intros Hdec Henc Hf w1.
  assert (db w1 = registered_in (db w) (Name service) serviceJSON) as Hw1.
  { by apply registerService_turn_reliable. }
  assert (faults w1 = []) as Hf1 by by apply serve_reliable.
  clearbody w1.
  assert (record_at (db w1) (Name service)
          = Some (set_LastHeartbeat now service)) as Hrec.
  { unfold record_at. rewrite Hw1, registered_in_lookup.
    by rewrite (unmarshal_marshal _ _ Henc). }
  split.
  - destruct (getService_behaviour (Name service) w1) as (_ & _ & ->);
      [| by rewrite Hf1].
    rewrite Hw1, registered_in_lookup.
    by rewrite (unmarshal_marshal _ _ Henc).
  - intros Hne Hidx.
    destruct (listServices_behaviour w1) as (_ & _ & Hlist).
    specialize (Hlist Hf1). rewrite Hw1 in Hlist.
    destruct (registered_in_index (db w) (Name service) serviceJSON Hne Hidx)
      as (idx & Hidx' & Hin).
    rewrite Hidx' in Hlist. destruct Hlist as (services & Hctx & Hlookup).
    exists services. split; [done |].
    rewrite Hlookup, decide_True by done. by rewrite <- Hw1.
Qed.

(** X16.  What an update writes, get answers: after an update that
    answered 200, a get of the key that reaches the server answers 200
    with the payload of the update and the heartbeat of the update. *)
Theorem update_then_get name service now w :
  status (serve (updateService name (Ok service) now) w).1 = Some StatusOK →
  let w1 := (serve (updateService name (Ok service) now) w).2 in
  head (faults w1) ≠ Some true →
  (serve (getService name) w1).1
  = JSON StatusOK (J_service (set_LastHeartbeat now service)) [].
Proof.
  intros Hok w1 Hf.
  assert (∃ serviceJSON,
            marshal (set_LastHeartbeat now service) = Ok serviceJSON
            ∧ db w1 !! name = Some (RString serviceJSON))
    as (serviceJSON & Henc & Hrec).
  { subst w1. clear Hf. revert Hok. destruct w as [d rv fs tr].
    unfold serve, updateService.
    destruct (validateService service); [done |].
    wire_cases; try done.
    all: intros _; eexists; split; [done | apply lookup_insert_eq]. }
  clearbody w1.
  destruct (getService_behaviour name w1) as (_ & _ & ->); [| done].
  by rewrite Hrec, (unmarshal_marshal _ _ Henc).
Qed.

(** *** A heartbeat beside an update *)

Section Heartbeat_points.

Variables (name : string) (now : Z).

Abbreviation hpoint := (at_hphase name now).

Lemma advance_HFresh c w :
  faults w = [] →
  advance (c, hpoint HFresh) w
  = ((<[name := revision (rev w) name]> c, hpoint HWatched),
     mkWorld (db w) (rev w) [] (trace w ++ [Watch name])).
Proof.
  destruct w as [d rv fs tr]. cbn. intros ->.
  unfold advance, at_hphase, healthCheck. reflexivity.
Qed.

Lemma advance_HWatched c w :
  faults w = [] → is_Some (db w !! name) →
  advance (c, hpoint HWatched) w
  = ((c, hpoint HChecked),
     mkWorld (db w) (rev w) [] (trace w ++ [Exists name])).
Proof.
  destruct w as [d rv fs tr]. cbn. intros -> [x Hx].
  unfold advance, at_hphase, healthCheck. cbn. rewrite Hx. reflexivity.
Qed.

Lemma advance_HChecked v c w :
  faults w = [] → db w !! name = Some (RString v) →
  advance (c, hpoint HChecked) w
  = ((c, hpoint (HRead v)),
     mkWorld (db w) (rev w) [] (trace w ++ [Get name])).
Proof.
  destruct w as [d rv fs tr]. cbn. intros -> Hv.
  unfold advance, at_hphase, healthCheck. cbn.
  destruct (decide (1%Z = 0%Z)); [done |]. cbn. rewrite Hv. reflexivity.
Qed.

Lemma advance_HRead v sv json c w :
  unmarshal v = Ok sv →
  marshal (set_LastHeartbeat now sv) = Ok json →
  faults w = [] →
  advance (c, hpoint (HRead v)) w
  = if unmodified c (rev w) then
      ((∅, hpoint (HDecided v true)),
       mkWorld (<[name := RString json]> (db w)) (touch name (rev w)) []
         (trace w ++ [TxSet name json]))
    else
      ((∅, hpoint (HDecided v false)),
       mkWorld (db w) (rev w) [] (trace w ++ [TxSet name json])).
Proof.
  intros Hdec Henc. destruct w as [d rv fs tr]. cbn. intros ->.
  unfold advance, at_hphase, healthCheck. cbn.
  destruct (decide (1%Z = 0%Z)); [done |]. cbn.
  rewrite Hdec, Henc. cbn. by destruct (unmodified c rv).
Qed.

Lemma advance_HDecided v sv json committed c w :
  unmarshal v = Ok sv →
  marshal (set_LastHeartbeat now sv) = Ok json →
  faults w = [] →
  advance (c, hpoint (HDecided v committed)) w
  = ((∅, hpoint (HReplied v committed)),
     mkWorld (db w) (rev w) [] (trace w ++ [Unwatch])).
Proof.
  intros Hdec Henc. destruct w as [d rv fs tr]. cbn. intros ->.
  unfold advance, at_hphase, healthCheck. cbn.
  destruct (decide (1%Z = 0%Z)); [done |]. cbn.
  rewrite Hdec, Henc. by destruct committed.
Qed.

Lemma hpoint_HReplied v sv json committed :
  unmarshal v = Ok sv →
  marshal (set_LastHeartbeat now sv) = Ok json →
  hpoint (HReplied v committed)
  = Ret (if committed then
           JSON StatusOK (H_message "Health check successful") []
         else
           JSON StatusConflict
             (H_error "Transaction failed, please try again") []).
Proof.
  intros Hdec Henc. unfold at_hphase, healthCheck. cbn.
  destruct (decide (1%Z = 0%Z)); [done |]. cbn.
  rewrite Hdec, Henc. by destruct committed.
Qed.

Lemma advance_HReplied v sv json committed c w :
  unmarshal v = Ok sv →
  marshal (set_LastHeartbeat now sv) = Ok json →
  advance (c, hpoint (HReplied v committed)) w
  = ((c, hpoint (HReplied v committed)), w).
Proof.
  intros Hdec Henc. unfold advance. cbn [snd].
  by rewrite (hpoint_HReplied _ _ _ _ Hdec Henc).
Qed.

End Heartbeat_points.

Section Guard.

Variables (name : string) (service : Service) (nowU nowH : Z) (jsonU : V).
Hypothesis valid : validateService service = None.
Hypothesis encodedU : marshal (set_LastHeartbeat nowU service) = Ok jsonU.
Hypothesis marshal_total : ∀ s, ∃ json, marshal s = Ok json.

Lemma updater_advance s t w :
  faults w = [] → is_Some (db w !! name) →
  updater_ok name service nowU s t →
  (same_store w (advance t w).2
   ∧ updater_ok name service nowU s (advance t w).1)
  ∨ (db (advance t w).2 = <[name := RString jsonU]> (db w)
     ∧ rev (advance t w).2 = touch name (rev w)
     ∧ faults (advance t w).2 = []
     ∧ updater_ok name service nowU (set_LastHeartbeat nowU service)
         (advance t w).1).
Proof.
  intros Hf Hdb (ph & Hp & Hc & Hs). destruct t as [c p].
  cbn [fst snd] in Hp, Hc. subst p.
  destruct ph as [| | | committed | committed].
  - left. rewrite (advance_Fresh _ _ _ valid) by done. cbn [fst snd].
    split; [by apply same_store_trace |]. cbn in Hc. subst c.
    exists Watched. split_and!; [done | | done].
    eexists. apply insert_empty.
  - left. rewrite (advance_Watched _ _ _ valid) by done. cbn [fst snd].
    split; [by apply same_store_trace |].
    exists Checked. by split_and!.
  - rewrite (advance_Checked _ _ _ _ valid encodedU) by done.
    destruct (unmodified c (rev w)); cbn [fst snd].
    + right. split_and!; [done.. |].
      exists (Decided true). by split_and!.
    + left. split; [by apply same_store_trace |].
      exists (Decided false). by split_and!.
  - left. rewrite (advance_Decided _ _ _ _ valid encodedU) by done.
    cbn [fst snd]. split; [by apply same_store_trace |].
    exists (Replied committed). by split_and!.
  - left. rewrite (advance_Replied _ _ _ _ valid encodedU).
    cbn [fst snd]. split; [done |].
    exists (Replied committed). by split_and!.
Qed.

Lemma beater_advance v s t w :
  faults w = [] → db w !! name = Some (RString v) → unmarshal v = Ok s →
  beater_ok name nowH w s t →
  (same_store w (advance t w).2
   ∧ beater_ok name nowH (advance t w).2 s (advance t w).1)
  ∨ (∃ sv json,
       same_identity sv s
       ∧ marshal (set_LastHeartbeat nowH sv) = Ok json
       ∧ db (advance t w).2 = <[name := RString json]> (db w)
       ∧ rev (advance t w).2 = touch name (rev w)
       ∧ faults (advance t w).2 = []
       ∧ beater_ok name nowH (advance t w).2 (set_LastHeartbeat nowH sv)
           (advance t w).1).
Proof.
  intros Hf Hdb Hdec (ph & Hp & Hc). destruct t as [c p].
  cbn [fst snd] in Hp, Hc. subst p.
  destruct ph as [| | | vr | vr committed | vr committed].
  - left. rewrite advance_HFresh by done. cbn [fst snd]. subst c.
    split; [by apply same_store_trace |].
    exists HWatched. split; [done |]. cbn.
    exists (revision (rev w) name). split; [apply insert_empty | done].
  - left. rewrite advance_HWatched by (done || by eexists). cbn [fst snd].
    split; [by apply same_store_trace |]. by exists HChecked.
  - left. rewrite (advance_HChecked _ _ v) by done. cbn [fst snd].
    split; [by apply same_store_trace |].
    destruct Hc as (r & Hc & Hr).
    exists (HRead v). split; [done |]. cbn. exists r, s. by split_and!.
  - destruct Hc as (r & sv & Hc & Hr & Hsv & Hid).
    destruct (marshal_total (set_LastHeartbeat nowH sv)) as [json Hjson].
    rewrite (advance_HRead _ _ _ _ _ _ _ Hsv Hjson) by done.
    subst c. rewrite unmodified_singleton.
    destruct (decide (revision (rev w) name = r)) as [Heq | Hneq].
    + rewrite bool_decide_eq_true_2 by done. cbn [fst snd]. right.
      exists sv, json. split_and!; try done; [by apply Hid |].
      exists (HDecided vr true). split; [done |]. cbn. split; [done |].
      by exists sv.
    + rewrite bool_decide_eq_false_2 by done. cbn [fst snd]. left.
      split; [by apply same_store_trace |].
      exists (HDecided vr false). split; [done |]. cbn. split; [done |].
      by exists sv.
  - left. destruct Hc as (Hc & sv & Hsv).
    destruct (marshal_total (set_LastHeartbeat nowH sv)) as [json Hjson].
    rewrite (advance_HDecided _ _ _ _ _ _ _ _ Hsv Hjson) by done.
    cbn [fst snd]. split; [by apply same_store_trace |].
    exists (HReplied vr committed). split; [done |]. cbn. split; [done |].
    by exists sv.
  - left. destruct Hc as (Hc & sv & Hsv).
    destruct (marshal_total (set_LastHeartbeat nowH sv)) as [json Hjson].
    rewrite (advance_HReplied _ _ _ _ _ _ _ _ Hsv Hjson).
    cbn [fst snd]. split; [done |].
    exists (HReplied vr committed). split; [done |]. cbn. split; [done |].
    by exists sv.
Qed.

Lemma updater_ok_identity s s' t :
  same_identity s' s →
  updater_ok name service nowU s t → updater_ok name service nowU s' t.
Proof.
  intros [Hn Ha] (ph & Hp & Hc & Hs). exists ph. split_and!; [done.. |].
  destruct ph as [| | | [] | []]; try done;
    destruct Hs as [Hn' Ha']; split; congruence.
Qed.

Lemma beater_ok_same_store s t w w' :
  same_store w w' → beater_ok name nowH w s t → beater_ok name nowH w' s t.
Proof. intros (_ & Hrev & _). unfold beater_ok. by rewrite Hrev. Qed.

(** A write of the key leaves every open heartbeat with a stale
    revision, whatever record it has read. *)
Lemma beater_ok_overtaken s s' t w w' :
  rev w' = touch name (rev w) →
  beater_ok name nowH w s t → beater_ok name nowH w' s' t.
Proof.
  intros Hrev (ph & Hp & Hc). exists ph. split; [done |].
  rewrite Hrev, revision_touch.
  destruct ph as [| | | vr | vr committed | vr committed]; try done.
  - destruct Hc as (r & Hc & Hr). exists r. split; [done | lia].
  - destruct Hc as (r & Hc & Hr). exists r. split; [done | lia].
  - destruct Hc as (r & sv & Hc & Hr & Hsv & _).
    exists r, sv. split_and!; [done | lia | done | lia].
Qed.

Abbreviation guarded' := (guarded name service nowU nowH).

Lemma step_guarded i cfg : guarded' cfg → guarded' (step i cfg).
Proof.
  intros (Hf & tU & tH & v & s & Hts & Hdb & Hdec & HU & HH).
  destruct cfg as [ts w]. cbn [fst snd] in *. subst ts.
  unfold step. cbn [fst snd].
  destruct i as [| [| i]]; simpl.
  3: { split; [done |]. by exists tU, tH, v, s. }
  - destruct (updater_advance s tU w Hf) as
      [[Hsame HU'] | (Hdb' & Hrev' & Hf' & HU')];
      [by eexists | done | |];
      destruct (advance tU w) as [tU' w']; cbn [fst snd] in *.
    + destruct Hsame as (Hd & Hr & Hfs). unfold guarded. cbn [fst snd].
      split; [by rewrite Hfs |].
      exists tU', tH, v, s. split_and!; try done; [by rewrite Hd |].
      by eapply beater_ok_same_store.
    + unfold guarded. cbn [fst snd]. split; [done |].
      exists tU', tH, jsonU, (set_LastHeartbeat nowU service).
      split_and!; try done.
      * by rewrite Hdb', lookup_insert_eq.
      * by apply unmarshal_marshal.
      * by eapply beater_ok_overtaken.
  - destruct (beater_advance v s tH w Hf Hdb Hdec HH) as
      [[Hsame HH'] | (sv & json & Hid & Hjson & Hdb' & Hrev' & Hf' & HH')];
      destruct (advance tH w) as [tH' w']; cbn [fst snd] in *.
    + destruct Hsame as (Hd & Hr & Hfs). unfold guarded. cbn [fst snd].
      split; [by rewrite Hfs |].
      exists tU, tH', v, s. split_and!; try done. by rewrite Hd.
    + unfold guarded. cbn [fst snd]. split; [done |].
      exists tU, tH', json, (set_LastHeartbeat nowH sv).
      split_and!; try done.
      * by rewrite Hdb', lookup_insert_eq.
      * by apply unmarshal_marshal.
      * eapply updater_ok_identity; [| done].
        destruct Hid as [Hn Ha]. by split.
Qed.

Lemma schedule_guarded sch cfg : guarded' cfg → guarded' (schedule sch cfg).
Proof.
  revert cfg. induction sch as [| i sch IH]; intros cfg Hcfg; [done |].
  cbn. apply IH. by apply step_guarded.
Qed.

Lemma updater_replied s t ctx :
  updater_ok name service nowU s t →
  response t = Some ctx → status ctx = Some StatusOK →
  same_identity s service.
Proof.
  intros (ph & Hp & _ & Hs). unfold response. rewrite Hp.
  destruct ph as [| | | committed | committed];
    try (unfold at_phase, updateService; rewrite valid; cbn; try done;
         rewrite encodedU; destruct (decide (1%Z = 0%Z)); try done; cbn;
         by destruct committed).
  rewrite (point_Replied _ _ _ _ valid encodedU).
  destruct committed; [done |]. by intros [= <-].
Qed.

End Guard.

(** X17.  A heartbeat cannot undo an update.  An update and a heartbeat
    of the same key run in any interleaving over a store that holds a
    decodable record under the key: as soon as the update has answered
    200, and whatever the heartbeat has done or does, the record under
    the key decodes to the name and address of the update's payload.
    A heartbeat that read the old record before the update committed
    is aborted by the watch instead of writing it back. *)
Theorem heartbeat_keeps_update name service nowU nowH v0 s0 w sch :
  validateService service = None →
  (∀ s, ∃ json, marshal s = Ok json) →
  db w !! name = Some (RString v0) →
  unmarshal v0 = Ok s0 →
  faults w = [] →
  let start := ([(∅, updateService name (Ok service) nowU);
                 (∅, healthCheck name nowH)], w) in
  let final := schedule sch start in
  ∀ tU tH ctx,
    final.1 = [tU; tH] →
    response tU = Some ctx →
    status ctx = Some StatusOK →
    ∃ v s, db final.2 !! name = Some (RString v)
           ∧ unmarshal v = Ok s
           ∧ Name s = Name service
           ∧ Address s = Address service.
Proof.
  intros Hvalid Htotal Hdb Hdec Hf start final tU tH ctx Hts Hresp Hst.
  destruct (Htotal (set_LastHeartbeat nowU service)) as [jsonU HjsonU].
  assert (guarded name service nowU nowH final)
    as (_ & tU' & tH' & v & s & Hts' & Hdb' & Hdec' & HU & _).
  { apply (schedule_guarded name service nowU nowH jsonU); [done.. |].
    split; [done |]. do 2 eexists. exists v0, s0.
    split_and!; [reflexivity | done | done | |].
    - by exists Fresh.
    - by exists HFresh. }
  rewrite Hts in Hts'. injection Hts' as <- <-.
  destruct (updater_replied name service nowU jsonU Hvalid HjsonU
              s tU ctx HU Hresp Hst) as [Hn Ha].
  by exists v, s.
Qed.
End Server.
End Redis.

(** ** The in-memory servers *)

Lemma validateService_set_LastHeartbeat now service :
  validateService (set_LastHeartbeat now service) = validateService service.
Proof. reflexivity. Qed.

(** X1.  A valid registration is answered 200; a get of the name then
    answers the payload with the heartbeat set to the clock reading,
    whatever was stored under the name before, and the get of any other
    name answers what it answered before. *)
Theorem Mem_register_then_get service now services :
  validateService service = None →
  let services' := (Mem.registerService (Ok service) now services).1 in
  status (Mem.registerService (Ok service) now services).2 = Some StatusOK
  ∧ Mem.getService (Name service) services'
    = JSON StatusOK (J_service (set_LastHeartbeat now service)) []
  ∧ ∀ other, other ≠ Name service →
      Mem.getService other services' = Mem.getService other services.
Proof.
  intros Hvalid. unfold Mem.registerService, Mem.getService.
  rewrite Hvalid. cbn [fst snd set_LastHeartbeat Name].
  split_and!; [done | by rewrite lookup_insert_eq |].
  intros other Hother. by rewrite lookup_insert_ne.
Qed.

(** X2.  Delete answers 200 exactly when the name is stored.  Whether
    it was or not, a get of the name afterwards answers 404, and the
    get of any other name answers what it answered before. *)
Theorem Mem_delete_then_get name services :
  let services' := (Mem.deleteService name services).1 in
  (status (Mem.deleteService name services).2 = Some StatusOK
   ↔ is_Some (services !! name))
  ∧ (status (Mem.deleteService name services).2 = Some StatusNotFound
     ↔ services !! name = None)
  ∧ status (Mem.getService name services') = Some StatusNotFound
  ∧ ∀ other, other ≠ name →
      Mem.getService other services' = Mem.getService other services.
Proof.
  unfold Mem.deleteService, Mem.getService.
  destruct (services !! name) as [service |] eqn:Hname; cbn [fst snd].
  - rewrite lookup_delete_eq. split_and!.
    + split; [by eexists | done].
    + split; discriminate.
    + done.
    + intros other Hother. by rewrite lookup_delete_ne.
  - rewrite Hname. split_and!.
    + split; [discriminate | by intros []].
    + done.
    + done.
    + done.
Qed.

(** X3.  Register, delete and health check keep the store keyed and
    valid, whatever the request; update keeps it when the payload is
    valid and carries the name of the path. *)
Theorem Mem_keyed_and_valid_kept services :
  keyed_and_valid services →
  (∀ bound now, keyed_and_valid (Mem.registerService bound now services).1)
  ∧ (∀ name, keyed_and_valid (Mem.deleteService name services).1)
  ∧ (∀ name now, keyed_and_valid (Mem.healthCheck name now services).1)
  ∧ (∀ name service now,
       validateService service = None → Name service = name →
       keyed_and_valid (Mem.updateService name (Ok service) now services).1).
Proof.
  intros Hinv. split_and!.
  - intros [service | err] now; [| done]. unfold Mem.registerService.
    destruct (validateService service) eqn:Hvalid; [done |].
    cbn [fst]. intros name stored.
    rewrite lookup_insert. cbn [set_LastHeartbeat Name].
    destruct (decide (Name service = name)); [| by apply Hinv].
    by intros [= <-].
  - intros name. unfold Mem.deleteService.
    destruct (services !! name); [| done]. cbn [fst].
    intros other stored [_ Hstored]%lookup_delete_Some. by apply Hinv.
  - intros name now. unfold Mem.healthCheck.
    destruct (services !! name) as [service |] eqn:Hname; [| done].
    cbn [fst]. intros other stored. rewrite lookup_insert.
    destruct (decide (name = other)) as [<- |]; [| by apply Hinv].
    intros [= <-]. by destruct (Hinv _ _ Hname).
  - intros name service now Hvalid Hname. unfold Mem.updateService.
    rewrite Hvalid. destruct (services !! name); [| done]. cbn [fst].
    intros other stored. rewrite lookup_insert.
    destruct (decide (name = other)) as [<- |]; [| by apply Hinv].
    by intros [= <-].
Qed.

(** X4.  On a name that is not stored, update and health check leave
    the map as it is; health check answers 404, and so does update for
    a payload that passes validation. *)
Theorem Mem_absent_name_untouched name services :
  services !! name = None →
  (∀ bound now,
      (Mem.updateService name bound now services).1 = services
      ∧ ∀ service, bound = Ok service → validateService service = None →
          status (Mem.updateService name bound now services).2
          = Some StatusNotFound)
  ∧ (∀ now,
      Mem.healthCheck name now services
      = (services, JSON StatusNotFound (H_error "Service not found") [])).
Proof.
  intros Hname. split.
  - intros [service | err] now; unfold Mem.updateService; rewrite ?Hname;
      (split; [done |]); intros service' [= <-] Hvalid.
    by rewrite Hvalid.
  - intros now. unfold Mem.healthCheck. by rewrite Hname.
Qed.

(** X5.  The first server stores whatever binds: it answers 200 to any
    bound payload, an empty name or address included, and a get of the
    payload's name answers the payload as it was sent, the caller's
    heartbeat with it. *)
Theorem Mem0_register_then_get service services :
  let services' := (Mem0.registerService (Ok service) services).1 in
  status (Mem0.registerService (Ok service) services).2 = Some StatusOK
  ∧ Mem0.getService (Name service) services'
    = JSON StatusOK (J_service service) []
  ∧ ∀ other, other ≠ Name service →
      Mem0.getService other services' = Mem0.getService other services.
Proof.
  unfold Mem0.registerService, Mem0.getService. cbn [fst snd].
  split_and!; [done | by rewrite lookup_insert_eq |].
  intros other Hother. by rewrite lookup_insert_ne.
Qed.

(** X18.  The update handler of the in-memory server does not stop at
    its validation error: for a payload that fails validation and a
    name that is stored, it answers 400 and, after it, writes the
    payload under the name all the same (a second body follows the
    first); the store is no longer valid when it was. *)
Theorem Mem_update_invalid_still_written name service now services err :
  validateService service = Some err →
  is_Some (services !! name) →
  let services' := (Mem.updateService name (Ok service) now services).1 in
  let ctx := (Mem.updateService name (Ok service) now services).2 in
  ctx = [(StatusBadRequest, H_error (Error err));
         (StatusOK, H_message "Service updated sucessfully.")]
  ∧ status ctx = Some StatusBadRequest
  ∧ services' = <[name := set_LastHeartbeat now service]> services
  ∧ ¬ keyed_and_valid services'.
Proof.
  intros Hinvalid [old Hold]. unfold Mem.updateService.
  rewrite Hinvalid, Hold. cbn [fst snd]. split_and!; [done.. |].
  intros Hinv.
  destruct (Hinv name (set_LastHeartbeat now service)) as [_ Hvalid];
    [apply lookup_insert_eq |].
  rewrite validateService_set_LastHeartbeat in Hvalid. congruence.
Qed.

(** ** The servers on the scenarios of the spec

    The handlers run here with the plain codec, on stores built around
    the record svc-a. *)

Import Redis.

(** A store where svc-a is registered: its record and its entry in
    the index set. *)
Definition registered (fs : list bool) : world (V := Service) :=
  mkWorld (<["svc-a" := RString svc_a]>
             (<[all_services := RSet {["svc-a"]}]> ∅)) ∅ fs [].

(** A store where svc-a has a record and no entry in the index set. *)
Definition unlisted : world (V := Service) :=
  mkWorld (<["svc-a" := RString svc_a]> ∅) ∅ [] [].

Definition empty_store (fs : list bool) : world (V := Service) :=
  mkWorld ∅ ∅ fs [].

(** The plain codec decodes what it encodes. *)
Lemma plain_unmarshal_marshal service serviceJSON :
  plain_marshal service = Ok serviceJSON →
  plain_unmarshal serviceJSON = Ok service.
Proof. by intros [= <-]. Defined.

(** C2 at the payload with the empty address. *)
Lemma validation_gate_witness :
  (Name svc_blank = "" ∨ Address svc_blank = "")
  ∧ (∃ ctx, Mem.registerService (Ok svc_blank) 5 ∅ = (∅, ctx)
            ∧ status ctx = Some StatusBadRequest)
  ∧ (∃ ctx, serve (updateService plain_marshal "svc-a" (Ok svc_blank) 5)
              (registered []) = (ctx, registered [])
            ∧ status ctx = Some StatusBadRequest).
Proof.
  split; [by right |].
  destruct (validation_gate plain_marshal svc_blank) as [Hreg Hupd];
    [by right |].
  split; [apply Hreg | apply Hupd].
Defined.

(** C1 on a schedule where both requests send WATCH, the second one
    runs to its reply and the first one follows. *)
Lemma update_race_witness :
  let start :=
    ([(∅, updateService plain_marshal "svc-a" (Ok svc_a_moved) 5);
      (∅, updateService plain_marshal "svc-a" (Ok svc_a_other) 6)],
     registered []) in
  let final := schedule [1; 1; 1; 0; 0; 0] (schedule [0; 1] start) in
  ∃ t1 t2 ctx1 ctx2,
    final.1 = [t1; t2]
    ∧ response t1 = Some ctx1 ∧ response t2 = Some ctx2
    ∧ ((status ctx1 = Some StatusOK ∧ status ctx2 = Some StatusConflict
        ∧ db final.2 !! "svc-a"
          = Some (RString (set_LastHeartbeat 5 svc_a_moved)))
       ∨ (status ctx1 = Some StatusConflict ∧ status ctx2 = Some StatusOK
          ∧ db final.2 !! "svc-a"
            = Some (RString (set_LastHeartbeat 6 svc_a_other)))).
Proof.
  apply (update_race plain_marshal "svc-a" svc_a_moved svc_a_other 5 6
           (set_LastHeartbeat 5 svc_a_moved) (set_LastHeartbeat 6 svc_a_other)
           (registered []) [0; 1] [1; 1; 1; 0; 0; 0]).
  - reflexivity.
  - reflexivity.
  - reflexivity.
  - reflexivity.
  - vm_compute. by eexists.
  - reflexivity.
  - vm_compute. repeat constructor.
  - apply Forall_forall. vm_compute. repeat (constructor || eexists).
Defined.

(** C5 on the empty store. *)
Lemma absent_key_not_created_witness :
  db (empty_store []) !! "svc-a" = None
  ∧ db (serve (updateService plain_marshal "svc-a" (Ok svc_a) 5)
          (empty_store [])).2 = ∅
  ∧ status (serve (updateService plain_marshal "svc-a" (Ok svc_a) 5)
              (empty_store [])).1 = Some StatusNotFound
  ∧ db (serve (healthCheck plain_marshal plain_unmarshal "svc-a" 5)
          (empty_store [])).2 = ∅
  ∧ status (serve (healthCheck plain_marshal plain_unmarshal "svc-a" 5)
              (empty_store [])).1 = Some StatusNotFound.
Proof.
  split; [reflexivity |].
  destruct (absent_key_not_created plain_marshal plain_unmarshal "svc-a"
              (empty_store [])) as [Hupd Hhb]; [reflexivity |].
  destruct (Hupd svc_a 5%Z) as [Hdb Hst], (Hhb 5%Z) as [Hdb' Hst'].
  split_and!; [exact Hdb | by apply Hst | exact Hdb' | by apply Hst'].
Defined.

(** C3 at the queued registration with the empty address. *)
Lemma consumer_skips_validation_witness :
  plain_unmarshal svc_blank = Ok svc_blank
  ∧ validateService svc_blank ≠ None
  ∧ let w' := (serve (registerService plain_marshal plain_unmarshal
                        [(Message svc_blank, 5%Z)]) (empty_store [])).2 in
    db w' !! "svc-a" = Some (RString (set_LastHeartbeat 5 svc_blank))
    ∧ ∃ line, trace w' = [] ++ [Set_ "svc-a" (set_LastHeartbeat 5 svc_blank);
                                SAdd all_services "svc-a"; Printf line].
Proof.
  split; [reflexivity |]. split; [discriminate |].
  apply (consumer_skips_validation plain_marshal plain_unmarshal svc_blank
           svc_blank 5 (set_LastHeartbeat 5 svc_blank) (empty_store []));
    [reflexivity | discriminate | reflexivity | reflexivity].
Defined.

(** C4, as amended, at an update of svc-a whose payload is named svc-b. *)
Lemma update_replaces_under_key_witness :
  (Mem.updateService "svc-a" (Ok svc_b) 5 {["svc-a" := svc_a]}).1
  = <["svc-a" := set_LastHeartbeat 5 svc_b]> {["svc-a" := svc_a]}
  ∧ db (serve (updateService plain_marshal "svc-a" (Ok svc_b) 5)
          (registered [])).2
    = <["svc-a" := RString (set_LastHeartbeat 5 svc_b)]> (db (registered [])).
Proof.
  destruct (update_replaces_under_key plain_marshal "svc-a" svc_b 5)
    as [Hmem Hredis].
  split.
  - apply Hmem. reflexivity.
  - destruct (Hredis (registered [])) as (_ & json & Hjson & Hdb);
      [reflexivity |].
    injection Hjson as <-. exact Hdb.
Defined.

(** C6, as amended, at a turn whose SADD is lost, and at a reader whose
    first read fails. *)
Lemma consumer_turn_writes_witness :
  let consume := registerService plain_marshal plain_unmarshal in
  let w' := (serve (registerService_turn plain_marshal plain_unmarshal
                      (Message svc_a) 5) (empty_store [false; true])).2 in
  (db w' = <["svc-a" := RString (set_LastHeartbeat 5 svc_a)]> ∅
   ∧ ∃ err, trace w' = [] ++
       [Set_ "svc-a" (set_LastHeartbeat 5 svc_a); SAdd all_services "svc-a";
        Printf ("Error adding service to set: " +:+ Error err)])
  ∧ (serve (consume ([(ReadError io_timeout, 1%Z)] ++ [(Message svc_a, 5%Z)]))
       (empty_store [true])).2
    = (serve (consume [(Message svc_a, 5%Z)])
         (serve (consume [(ReadError io_timeout, 1%Z)])
            (empty_store [true])).2).2.
Proof.
  destruct (consumer_turn_writes plain_marshal plain_unmarshal svc_a svc_a 5
              (set_LastHeartbeat 5 svc_a)) as [Hturn Hloop];
    [reflexivity | reflexivity |].
  split; [| apply Hloop].
  destruct (Hturn (empty_store [false; true]))
    as [(Hlost & _) | [(_ & Hdb & Htr) | (_ & _ & (s & Hidx & _) & _)]].
  - discriminate Hlost.
  - split; [exact Hdb | exact Htr].
  - vm_compute in Hidx. discriminate Hidx.
Defined.

(** C7 at the delete of svc-a. *)
Lemma delete_record_then_index_witness :
  let w' := (serve (deleteService "svc-a") (registered [])).2 in
  status (serve (deleteService "svc-a") (registered [])).1 = Some StatusOK
  ∧ trace w' = [] ++ [Exists "svc-a"; Del "svc-a"; SRem all_services "svc-a"]
  ∧ db w' !! "svc-a" = None
  ∧ status (serve (getService plain_unmarshal "svc-a") w').1
    = Some StatusNotFound.
Proof.
  destruct (delete_record_then_index plain_unmarshal "svc-a" (registered []))
    as [Hok Hafter].
  assert (status (serve (deleteService "svc-a") (registered [])).1
          = Some StatusOK) as Hst.
  { apply Hok; [by eexists | | reflexivity].
    intros v. vm_compute. discriminate. }
  destruct (Hafter Hst) as (Htr & Hgone & _ & Hget & _).
  split_and!; [exact Hst | exact Htr | exact Hgone |].
  apply Hget. vm_compute. discriminate.
Defined.

(** C9 at the delete of svc-a whose SREM is lost. *)
Lemma delete_not_atomic_witness :
  let ctx := (serve (deleteService "svc-a")
                (registered [false; false; true])).1 in
  let w' := (serve (deleteService "svc-a")
               (registered [false; false; true])).2 in
  status ctx = Some StatusInternalServerError
  ∧ trace w' = [] ++ [Exists "svc-a"; Del "svc-a"; SRem all_services "svc-a"]
  ∧ db w' = delete "svc-a" (db (registered [false; false; true]))
  ∧ db w' !! "svc-a" = None
  ∧ db w' !! all_services = Some (RSet {["svc-a"]}).
Proof.
  apply (delete_not_atomic "svc-a" svc_a {["svc-a"]}
           (registered [false; false; true]) []);
    [reflexivity | reflexivity | by apply elem_of_singleton | reflexivity].
Defined.

(** C10 at the record svc-a that no index set lists. *)
Lemma get_ignores_index_witness :
  (serve (getService plain_unmarshal "svc-a") unlisted).1
  = JSON StatusOK (J_service svc_a) []
  ∧ (∀ code services,
       (serve (listServices plain_unmarshal) unlisted).1
       = JSON code (J_services services) [] →
       services !! "svc-a" = None).
Proof.
  destruct (get_ignores_index plain_unmarshal "svc-a" svc_a svc_a unlisted)
    as (Hget & _ & Hlist);
    [reflexivity | reflexivity | | reflexivity | by split].
  intros s. vm_compute. discriminate.
Defined.

(** C8 at a heartbeat of svc-a, with the plain codec. *)
Lemma heartbeat_keeps_name_and_address_witness :
  ∃ serviceJSON service updatedServiceJSON updated,
    db (registered []) !! "svc-a" = Some (RString serviceJSON)
    ∧ plain_unmarshal serviceJSON = Ok service
    ∧ db (serve (healthCheck plain_marshal plain_unmarshal "svc-a" 5)
            (registered [])).2
      = <["svc-a" := RString updatedServiceJSON]> (db (registered []))
    ∧ plain_unmarshal updatedServiceJSON = Ok updated
    ∧ Name updated = Name service
    ∧ Address updated = Address service
    ∧ LastHeartbeat updated = 5%Z.
Proof.
  destruct (heartbeat_keeps_name_and_address plain_marshal plain_unmarshal
              plain_unmarshal_marshal "svc-a" 5) as [_ Hredis].
  apply Hredis. reflexivity.
Defined.

(** C2, counterexample: the first server has no validation; a
    registration with an empty address is answered 200 and stored. *)
Lemma register_blank_address_counterexample :
  let services' := (Mem0.registerService (Ok svc_blank) ∅).1 in
  let ctx := (Mem0.registerService (Ok svc_blank) ∅).2 in
  Address svc_blank = ""
  ∧ status ctx = Some StatusOK
  ∧ services' !! "svc-a" = Some svc_blank
  ∧ ¬ (status ctx = Some StatusBadRequest ∧ services' = ∅).
Proof.
  split_and!; [reflexivity.. |]. intros [Hst _]. discriminate Hst.
Defined.

(** The update handler of the in-memory server answers 400 to a payload
    with an empty address and still replaces the record: the validation
    branch has no [return]. *)
Lemma Mem_updateService_falls_through :
  let services := {["svc-a" := svc_a]} in
  let services' := (Mem.updateService "svc-a" (Ok svc_blank) 5 services).1 in
  let ctx := (Mem.updateService "svc-a" (Ok svc_blank) 5 services).2 in
  ctx = [(StatusBadRequest, H_error "service Address cannot be empty");
         (StatusOK, H_message "Service updated sucessfully.")]
  ∧ status ctx = Some StatusBadRequest
  ∧ services' !! "svc-a" = Some (set_LastHeartbeat 5 svc_blank).
Proof. split_and!; reflexivity. Qed.

(** C4, counterexample: an update of svc-a whose payload is named svc-b
    succeeds on both servers and leaves, under the key svc-a, a record
    whose name field is svc-b. *)
Lemma update_renames_counterexample :
  let services' :=
    (Mem.updateService "svc-a" (Ok svc_b) 5 {["svc-a" := svc_a]}).1 in
  let ctx := (Mem.updateService "svc-a" (Ok svc_b) 5 {["svc-a" := svc_a]}).2 in
  let served :=
    serve (updateService plain_marshal "svc-a" (Ok svc_b) 5) (registered []) in
  (status ctx = Some StatusOK
   ∧ ∃ stored, services' !! "svc-a" = Some stored
               ∧ Name stored = "svc-b" ∧ Name stored ≠ "svc-a")
  ∧ (status served.1 = Some StatusOK
     ∧ ∃ stored, db served.2 !! "svc-a" = Some (RString stored)
                 ∧ Name stored = "svc-b" ∧ Name stored ≠ "svc-a").
Proof.
  split; (split; [reflexivity |]); eexists;
    (split; [vm_compute; reflexivity |]); by split.
Defined.

(** C6, counterexample: when the SET of a registration is lost, the
    turn logs the failure and ends; no SADD is sent. *)
Lemma consumer_skips_index_counterexample :
  let w' := (serve (registerService_turn plain_marshal plain_unmarshal
                      (Message svc_a) 5) (empty_store [true])).2 in
  trace w' = [Set_ "svc-a" (set_LastHeartbeat 5 svc_a);
              Printf "Error registering service: i/o timeout"]
  ∧ ∀ key member, SAdd key member ∉ trace w'.
Proof.
  split; [reflexivity |]. intros key member Hin. vm_compute in Hin.
  repeat (apply elem_of_cons in Hin as [Hin | Hin]; [discriminate Hin |]).
  by apply elem_of_nil in Hin.
Defined.

(** *** Scenarios *)

(** svc-a arrives through the queue at time 5: get answers it with the
    heartbeat 5, delete answers 200, get then answers 404 and list the
    empty map. *)
Example register_get_delete_scenario :
  let w1 := (serve (registerService plain_marshal plain_unmarshal
                      [(Message svc_a, 5%Z)]) (empty_store [])).2 in
  let w2 := (serve (deleteService "svc-a") w1).2 in
  (serve (getService plain_unmarshal "svc-a") w1).1
  = JSON StatusOK (J_service (set_LastHeartbeat 5 svc_a)) []
  ∧ (serve (listServices plain_unmarshal) w1).1
    = JSON StatusOK (J_services {["svc-a" := set_LastHeartbeat 5 svc_a]}) []
  ∧ status (serve (deleteService "svc-a") w1).1 = Some StatusOK
  ∧ status (serve (getService plain_unmarshal "svc-a") w2).1
    = Some StatusNotFound
  ∧ (serve (listServices plain_unmarshal) w2).1
    = JSON StatusOK (J_services ∅) [].
Proof. split_and!; vm_compute; reflexivity. Qed.

(** Two updates of svc-a one after the other do not race: both answer
    200 and the key holds the payload of the second. *)
Example updates_in_turn_scenario :
  let start :=
    ([(∅, updateService plain_marshal "svc-a" (Ok svc_a_moved) 5);
      (∅, updateService plain_marshal "svc-a" (Ok svc_a_other) 6)],
     registered []) in
  let final := schedule [0; 0; 0; 0; 1; 1; 1; 1] start in
  (λ t, response t ≫= status) <$> final.1
  = [Some StatusOK; Some StatusOK]
  ∧ db final.2 !! "svc-a" = Some (RString (set_LastHeartbeat 6 svc_a_other)).
Proof. split; vm_compute; reflexivity. Qed.

(** The race of [update_race_witness]: the second request commits, the
    first one answers 409, and its retry, alone, answers 200. *)
Example race_then_retry_scenario :
  let start :=
    ([(∅, updateService plain_marshal "svc-a" (Ok svc_a_moved) 5);
      (∅, updateService plain_marshal "svc-a" (Ok svc_a_other) 6)],
     registered []) in
  let final := schedule [0; 1; 1; 1; 1; 0; 0; 0] start in
  let retry :=
    serve (updateService plain_marshal "svc-a" (Ok svc_a_moved) 7) final.2 in
  (λ t, response t ≫= status) <$> final.1
  = [Some StatusConflict; Some StatusOK]
  ∧ db final.2 !! "svc-a" = Some (RString (set_LastHeartbeat 6 svc_a_other))
  ∧ status retry.1 = Some StatusOK
  ∧ db retry.2 !! "svc-a" = Some (RString (set_LastHeartbeat 7 svc_a_moved)).
Proof. split_and!; vm_compute; reflexivity. Qed.

(** A record named like the index set takes its key: the SADD that
    follows fails on the wrong type, and list fails with it. *)
Example index_key_taken_scenario :
  let w1 := (serve (registerService plain_marshal plain_unmarshal
                      [(Message (mkService all_services "10.0.0.4:9000" 0),
                        5%Z)]) (registered [])).2 in
  (∃ v, db w1 !! all_services = Some (RString v))
  ∧ status (serve (listServices plain_unmarshal) w1).1
    = Some StatusInternalServerError.
Proof. split; [eexists |]; vm_compute; reflexivity. Qed.

(** *** The further properties on the scenarios *)

(** X1 at the registration of svc-a at time 5. *)
Lemma Mem_register_then_get_witness :
  validateService svc_a = None
  ∧ Mem.getService "svc-a" (Mem.registerService (Ok svc_a) 5 ∅).1
    = JSON StatusOK (J_service (set_LastHeartbeat 5 svc_a)) [].
Proof.
  split; [reflexivity |].
  destruct (Mem_register_then_get svc_a 5 ∅) as (_ & Hget & _);
    [reflexivity | exact Hget].
Defined.

(** X3 on the store that holds svc-a. *)
Lemma Mem_keyed_and_valid_kept_witness :
  keyed_and_valid (Mem.registerService (Ok svc_b) 5 {["svc-a" := svc_a]}).1
  ∧ keyed_and_valid (Mem.deleteService "svc-a" {["svc-a" := svc_a]}).1.
Proof.
  destruct (Mem_keyed_and_valid_kept {["svc-a" := svc_a]})
    as (Hreg & Hdel & _).
  - intros name service [<- <-]%lookup_singleton_Some. by split.
  - split; [apply Hreg | apply Hdel].
Defined.

(** X4 on the empty store. *)
Lemma Mem_absent_name_untouched_witness :
  (Mem.updateService "svc-a" (Ok svc_a) 5 ∅).1 = ∅
  ∧ status (Mem.updateService "svc-a" (Ok svc_a) 5 ∅).2
    = Some StatusNotFound
  ∧ Mem.healthCheck "svc-a" 5 ∅
    = (∅, JSON StatusNotFound (H_error "Service not found") []).
Proof.
  destruct (Mem_absent_name_untouched "svc-a" ∅) as [Hupd Hhb];
    [reflexivity |].
  destruct (Hupd (Ok svc_a) 5%Z) as [Hmap Hst].
  split_and!; [exact Hmap | by eapply Hst | apply Hhb].
Defined.

(** X18 at the update of svc-a with the empty address. *)
Lemma Mem_update_invalid_still_written_witness :
  status (Mem.updateService "svc-a" (Ok svc_blank) 5 {["svc-a" := svc_a]}).2
  = Some StatusBadRequest
  ∧ (Mem.updateService "svc-a" (Ok svc_blank) 5 {["svc-a" := svc_a]}).1
    = <["svc-a" := set_LastHeartbeat 5 svc_blank]> {["svc-a" := svc_a]}.
Proof.
  destruct (Mem_update_invalid_still_written "svc-a" svc_blank 5
              {["svc-a" := svc_a]}
              (Errorf "service Address cannot be empty"))
    as (_ & Hst & Hmap & _); [reflexivity | by eexists |].
  split; [exact Hst | exact Hmap].
Defined.

(** X6 at the get of svc-a where it is registered. *)
Lemma getService_reads_only_witness :
  (serve (getService plain_unmarshal "svc-a") (registered [])).1
  = JSON StatusOK (J_service svc_a) [].
Proof.
  destruct (getService_reads_only plain_unmarshal "svc-a" (registered []))
    as (_ & _ & Hget).
  apply Hget. discriminate.
Defined.

(** X7 where svc-a is registered. *)
Lemma listServices_exact_witness :
  ∃ services,
    (serve (listServices plain_unmarshal) (registered [])).1
    = JSON StatusOK (J_services services) []
    ∧ services !! "svc-a" = Some svc_a.
Proof.
  destruct (listServices_exact plain_unmarshal (registered []))
    as (_ & _ & Hlist).
  destruct (Hlist eq_refl) as (services & Hctx & Hlookup).
  exists services. split; [exact Hctx |]. by rewrite Hlookup.
Defined.

(** X8 where svc-a is registered. *)
Lemma listed_then_get_witness :
  (serve (getService plain_unmarshal "svc-a")
     (serve (listServices plain_unmarshal) (registered [])).2).1
  = JSON StatusOK (J_service svc_a) [].
Proof.
  apply (listed_then_get plain_unmarshal (registered [])
           {["svc-a" := svc_a]} "svc-a" svc_a);
    [reflexivity | vm_compute; reflexivity | reflexivity].
Defined.

(** X9 at a read that fails. *)
Lemma consumer_drops_unusable_witness :
  let w' := (serve (registerService_turn plain_marshal plain_unmarshal
                      (ReadError io_timeout) 5) (registered [true])).2 in
  db w' = db (registered [true]) ∧ rev w' = rev (registered [true])
  ∧ faults w' = [true]
  ∧ ∃ line, trace w' = [] ++ [Printf line].
Proof.
  apply (consumer_drops_unusable plain_marshal plain_unmarshal
           (ReadError io_timeout) 5 (registered [true])). exact I.
Defined.

(** X10 at two deliveries of svc-a. *)
Lemma consumer_redelivery_witness :
  db (serve (registerService plain_marshal plain_unmarshal
               [(Message svc_a, 5%Z); (Message svc_a, 6%Z)])
        (empty_store [])).2
  = db (serve (registerService plain_marshal plain_unmarshal
                 [(Message svc_a, 6%Z)]) (empty_store [])).2.
Proof.
  apply (consumer_redelivery plain_marshal plain_unmarshal svc_a svc_a 5 6
           (set_LastHeartbeat 6 svc_a) (empty_store [])); reflexivity.
Defined.

(** X11 at the registration of svc-a in the empty store. *)
Lemma register_then_delete_witness :
  let w1 := (serve (registerService_turn plain_marshal plain_unmarshal
                      (Message svc_a) 5) (empty_store [])).2 in
  status (serve (deleteService "svc-a") w1).1 = Some StatusOK
  ∧ db (serve (deleteService "svc-a") w1).2 = ∅.
Proof.
  apply (register_then_delete plain_marshal plain_unmarshal svc_a svc_a 5
           (set_LastHeartbeat 5 svc_a) (empty_store []));
    [reflexivity | reflexivity | reflexivity | reflexivity | discriminate
    | by left].
Defined.

(** X12 at the delete of svc-a in the empty store. *)
Lemma deleteService_absent_and_frame_witness :
  serve (deleteService "svc-a") (empty_store [])
  = (JSON StatusNotFound (H_error "Service not found") [],
     mkWorld ∅ ∅ [] ([] ++ [Exists "svc-a"])).
Proof.
  destruct (deleteService_absent_and_frame "svc-a"
              (empty_store [])) as [Habsent _].
  by apply Habsent.
Defined.


(** X14 at a registration named all:services where svc-a is registered. *)
Lemma index_key_taken_witness :
  let w1 := (serve (registerService_turn plain_marshal plain_unmarshal
                      (Message (mkService all_services "10.0.0.4:9000" 0)) 5)
               (registered [])).2 in
  status (serve (listServices plain_unmarshal) w1).1
  = Some StatusInternalServerError.
Proof.
  destruct (index_key_taken plain_marshal plain_unmarshal 5 (registered []))
    as [Hreg _]; [reflexivity |].
  destruct (Hreg (mkService all_services "10.0.0.4:9000" 0)
              (mkService all_services "10.0.0.4:9000" 0)
              (mkService all_services "10.0.0.4:9000" 5))
    as (_ & _ & Hlist); [reflexivity.. |].
  exact Hlist.
Defined.

(** X15 at the registration of svc-a in the empty store. *)
Lemma register_then_get_witness :
  let w1 := (serve (registerService_turn plain_marshal plain_unmarshal
                      (Message svc_a) 5) (empty_store [])).2 in
  (serve (getService plain_unmarshal "svc-a") w1).1
  = JSON StatusOK (J_service (set_LastHeartbeat 5 svc_a)) []
  ∧ ∃ services,
      (serve (listServices plain_unmarshal) w1).1
      = JSON StatusOK (J_services services) []
      ∧ services !! "svc-a" = Some (set_LastHeartbeat 5 svc_a).
Proof.
  destruct (register_then_get plain_marshal plain_unmarshal
              plain_unmarshal_marshal svc_a svc_a 5
              (set_LastHeartbeat 5 svc_a) (empty_store []))
    as [Hget Hlist]; [reflexivity.. |].
  split; [exact Hget |]. apply Hlist; [discriminate |].
  intros v. vm_compute. discriminate.
Defined.

(** X16 at the update that moves svc-a. *)
Lemma update_then_get_witness :
  (serve (getService plain_unmarshal "svc-a")
     (serve (updateService plain_marshal "svc-a" (Ok svc_a_moved) 5)
        (registered [])).2).1
  = JSON StatusOK (J_service (set_LastHeartbeat 5 svc_a_moved)) [].
Proof.
  apply (update_then_get plain_marshal plain_unmarshal
           plain_unmarshal_marshal "svc-a" svc_a_moved 5 (registered []));
    [reflexivity | vm_compute; discriminate].
Defined.

(** X17 on a schedule where the heartbeat reads svc-a, the update then
    runs to its reply, and the heartbeat goes on. *)
Lemma heartbeat_keeps_update_witness :
  let start :=
    ([(∅, updateService plain_marshal "svc-a" (Ok svc_a_moved) 5);
      (∅, healthCheck plain_marshal plain_unmarshal "svc-a" 6)],
     registered []) in
  let final := schedule [1; 1; 1; 0; 0; 0; 0; 1; 1] start in
  ∃ v s, db final.2 !! "svc-a" = Some (RString v)
         ∧ plain_unmarshal v = Ok s
         ∧ Name s = Name svc_a_moved
         ∧ Address s = Address svc_a_moved.
Proof.
  eapply (heartbeat_keeps_update plain_marshal plain_unmarshal
            plain_unmarshal_marshal "svc-a" svc_a_moved 5 6 svc_a svc_a
            (registered []) [1; 1; 1; 0; 0; 0; 0; 1; 1]).
  - reflexivity.
  - intros s. by eexists.
  - reflexivity.
  - reflexivity.
  - reflexivity.
  - vm_compute. reflexivity.
  - vm_compute. reflexivity.
  - reflexivity.
Defined.

(** The heartbeat of that schedule is the one that gives way: it
    answers 409, and the address stays the one the update wrote. *)
Example heartbeat_gives_way_scenario :
  let start :=
    ([(∅, updateService plain_marshal "svc-a" (Ok svc_a_moved) 5);
      (∅, healthCheck plain_marshal plain_unmarshal "svc-a" 6)],
     registered []) in
  let final := schedule [1; 1; 1; 0; 0; 0; 0; 1; 1] start in
  (λ t, response t ≫= status) <$> final.1
  = [Some StatusOK; Some StatusConflict]
  ∧ db final.2 !! "svc-a" = Some (RString (set_LastHeartbeat 5 svc_a_moved)).
Proof. split; vm_compute; reflexivity. Qed.

(** X19 at svc-a delivered between a failed read and svc-b, the first
    command lost. *)
Lemma consumer_attempts_every_message_witness :
  Set_ "svc-a" (set_LastHeartbeat 5 svc_a)
  ∈ trace (serve (registerService plain_marshal plain_unmarshal
                    ([(ReadError io_timeout, 1%Z)]
                     ++ (Message svc_a, 5%Z) :: [(Message svc_b, 6%Z)]))
             (empty_store [true])).2.
Proof.
  apply (consumer_attempts_every_message plain_marshal plain_unmarshal
           [(ReadError io_timeout, 1%Z)] [(Message svc_b, 6%Z)]
           svc_a svc_a 5 (set_LastHeartbeat 5 svc_a) (empty_store [true]));
    reflexivity.
Defined.

(** X20 at the update that moves svc-a. *)
Lemma updateService_reliable_witness :
  let ctx := (serve (updateService plain_marshal "svc-a" (Ok svc_a_moved) 5)
                (registered [])).1 in
  let w' := (serve (updateService plain_marshal "svc-a" (Ok svc_a_moved) 5)
               (registered [])).2 in
  ctx = JSON StatusOK (H_message "Service updated sucessfully.") []
  ∧ db w' = <["svc-a" := RString (set_LastHeartbeat 5 svc_a_moved)]>
              (db (registered []))
  ∧ trace w' = [] ++ [Watch "svc-a"; Exists "svc-a";
                      TxSet "svc-a" (set_LastHeartbeat 5 svc_a_moved);
                      Unwatch].
Proof.
  apply (updateService_reliable plain_marshal "svc-a" svc_a_moved 5
           (set_LastHeartbeat 5 svc_a_moved) (registered []));
    reflexivity.
Defined.
